(** * phonecodes: a shallow embedding of [phonecodes.py] and its properties

    The development follows the layout of the Python module:
    - [Py]: the fragment of the Python runtime the module relies on
      ([str], exceptions, list indexing, slices, [max], [str.join], [in],
      [repr]);
    - [translate_string]: the minimum-cost segmentation;
    - [attach_tones_to_vowels]: the tone/stress re-attachment pass, over a
      store of list objects;
    - [re_sub] and [_post_process_reduction]: the ordered substitution;
    - [Phonecodes], [convert] and the per-code wrappers.

    A [str] is a sequence of Unicode code points, as in Python 3: lengths,
    positions, slices and the steps of the regular-expression engine count
    code points, so an IPA letter is one character.  Python integers that
    are lengths, positions >= 0 and path costs are [nat]; the indices of the
    re-attachment pass, which can be [-1], are [Z]. *)

From Stdlib Require Import ZArith NArith Lia.
From Stdlib.Strings Require Byte.
From stdpp Require Import gmap list.

(** ** Python runtime fragment *)

Module Py.

(** *** [str] *)

(** A character is a Unicode code point. *)
Definition char : Type := N.

Inductive str : Type :=
| EmptyString
| String (c : char) (s : str).

(** String literals are written in UTF-8 and read one code point per
    character: the literal for e-acute is [String 233 EmptyString]. *)
Definition utf8_continuation (b : Byte.byte) : option N :=
  let n := Byte.to_N b in
  if ((128 <=? n) && (n <? 192))%N then Some (n - 128)%N else None.

Fixpoint utf8_decode_from (fuel : nat) (bs : list Byte.byte) : option str :=
  match bs, fuel with
  | [], _ => Some EmptyString
  | _, O => None
  | b :: bs1, S fuel' =>
      let n := Byte.to_N b in
      if (n <? 128)%N then String n <$> utf8_decode_from fuel' bs1
      else if (n <? 192)%N then None
      else if (n <? 224)%N then
        match bs1 with
        | b1 :: bs2 =>
            c1 ← utf8_continuation b1;
            String ((n - 192) * 64 + c1)%N <$> utf8_decode_from fuel' bs2
        | _ => None
        end
      else if (n <? 240)%N then
        match bs1 with
        | b1 :: b2 :: bs3 =>
            c1 ← utf8_continuation b1; c2 ← utf8_continuation b2;
            String (((n - 224) * 64 + c1) * 64 + c2)%N <$> utf8_decode_from fuel' bs3
        | _ => None
        end
      else
        match bs1 with
        | b1 :: b2 :: b3 :: bs4 =>
            c1 ← utf8_continuation b1; c2 ← utf8_continuation b2;
            c3 ← utf8_continuation b3;
            String ((((n - 240) * 64 + c1) * 64 + c2) * 64 + c3)%N
              <$> utf8_decode_from fuel' bs4
        | _ => None
        end
  end.

Definition utf8_decode (bs : list Byte.byte) : option str :=
  utf8_decode_from (length bs) bs.

Definition utf8_byte (n : N) : Byte.byte := default Byte.x00 (Byte.of_N n).

Definition utf8_encode_char (c : char) : option (list Byte.byte) :=
  if (c <? 128)%N then Some [utf8_byte c]
  else if (c <? 2048)%N then
    Some [utf8_byte (192 + c / 64); utf8_byte (128 + c mod 64)]
  else if (c <? 65536)%N then
    Some [utf8_byte (224 + c / 4096); utf8_byte (128 + (c / 64) mod 64);
          utf8_byte (128 + c mod 64)]
  else if (c <? 1114112)%N then
    Some [utf8_byte (240 + c / 262144); utf8_byte (128 + (c / 4096) mod 64);
          utf8_byte (128 + (c / 64) mod 64); utf8_byte (128 + c mod 64)]
  else None.

Fixpoint utf8_encode (s : str) : option (list Byte.byte) :=
  match s with
  | EmptyString => Some []
  | String c s' => bs ← utf8_encode_char c; bs' ← utf8_encode s'; Some (bs ++ bs')
  end.

String Notation str utf8_decode utf8_encode : stdpp_scope.

(** The characters of a string, and back. *)
Fixpoint chars (s : str) : list char :=
  match s with
  | EmptyString => []
  | String c s' => c :: chars s'
  end.

Fixpoint of_chars (l : list char) : str :=
  match l with
  | [] => EmptyString
  | c :: l' => String c (of_chars l')
  end.

Global Instance str_eq_dec : EqDecision str.
Proof. solve_decision. Defined.

Global Instance str_inhabited : Inhabited str := populate EmptyString.

Global Instance str_countable : Countable str.
Proof.
  refine (inj_countable' chars of_chars _).
  intros s. induction s as [|c s IH]; [reflexivity|]. cbn. by rewrite IH.
Defined.

(** [len(s)] *)
Fixpoint len (s : str) : nat :=
  match s with
  | EmptyString => 0
  | String _ s' => S (len s')
  end.

(** [s1 + s2] *)
Fixpoint append (s1 s2 : str) : str :=
  match s1 with
  | EmptyString => s2
  | String c s1' => String c (append s1' s2)
  end.
Global Arguments append : simpl never.

Infix "+:+" := append (at level 60, right associativity) : stdpp_scope.

(** [s[n:]] for [0 <= n] *)
Fixpoint str_drop (n : nat) (s : str) : str :=
  match n, s with
  | S n', String _ s' => str_drop n' s'
  | _, _ => s
  end.

(** [s[:m]] for [0 <= m] *)
Fixpoint str_take (m : nat) (s : str) : str :=
  match m, s with
  | S m', String c s' => String c (str_take m' s')
  | _, _ => EmptyString
  end.

(** [s[n:n+m]] for [0 <= n] and [0 <= m] *)
Definition substring (n m : nat) (s : str) : str := str_take m (str_drop n s).

(** [s.startswith(k)] *)
Fixpoint is_prefix (k s : str) : bool :=
  match k, s with
  | EmptyString, _ => true
  | String _ _, EmptyString => false
  | String a k', String b s' => bool_decide (a = b) && is_prefix k' s'
  end.

(** [sep.join(ls)] *)
Fixpoint join_with (sep : str) (ls : list str) : str :=
  match ls with
  | [] => EmptyString
  | [x] => x
  | x :: xs => x +:+ sep +:+ join_with sep xs
  end.

(** *** Exceptions and outcomes *)


Inductive exn : Type :=
| ValueError (msg : str)
| KeyError (key : str)
| IndexError.

(** Result of running a piece of Python: a value, a raised exception, or
    the loop budget of the model ran out ([OutOfFuel] stands for "the model
    did not see the loop finish", never for a Python result). *)
Inductive outcome (A : Type) : Type :=
| Ok (a : A)
| Raise (e : exn)
| OutOfFuel.
Global Arguments Ok {A} a.
Global Arguments Raise {A} e.
Global Arguments OutOfFuel {A}.

Global Instance outcome_ret : MRet outcome := λ A a, Ok a.
Global Instance outcome_bind : MBind outcome := λ A B f m,
  match m with
  | Ok a => f a
  | Raise e => Raise e
  | OutOfFuel => OutOfFuel
  end.

(** [for x in xs: st = body(x, st)] *)
Fixpoint for_in {A S : Type} (xs : list A) (body : A → S → outcome S) (st : S)
  : outcome S :=
  match xs with
  | [] => Ok st
  | x :: xs' => st' ← body x st; for_in xs' body st'
  end.

(** [range(a, b)] for [0 <= a] *)
Definition range (a b : nat) : list nat := seq a (b - a).

(** [l[i]] for [i >= 0] *)
Definition getitem {A : Type} (l : list A) (i : nat) : outcome A :=
  match l !! i with
  | Some x => Ok x
  | None => Raise IndexError
  end.

(** [l[i] = x] for [i >= 0] *)
Definition setitem {A : Type} (l : list A) (i : nat) (x : A) : outcome (list A) :=
  if decide (i < length l) then Ok (<[i:=x]> l) else Raise IndexError.

(** [max(xs)] *)
Definition max (xs : list nat) : outcome nat :=
  match xs with
  | [] => Raise (ValueError "max() arg is an empty sequence")
  | x :: xs' => Ok (foldl Nat.max x xs')
  end.

(** [s[a:b]] for [0 <= a] and [0 <= b] *)
Definition slice (s : str) (a b : nat) : str := substring a (b - a) s.

(** ["".join(l)] *)
Definition join (l : list str) : str := join_with "" l.

(** [x in s] for strings: [x] occurs in [s] as a substring *)
Fixpoint contains (x s : str) : bool :=
  is_prefix x s ||
  match s with
  | EmptyString => false
  | String _ s' => contains x s'
  end.

(** A [dict] whose insertion order matters: the entries in insertion order.
    Keys are unique in a Python dict; [dict_get] returns the entry of the
    first occurrence, which is the only one then. *)
Definition odict : Type := list (str * str).

Fixpoint dict_get (m : odict) (k : str) : outcome str :=
  match m with
  | [] => Raise (KeyError k)
  | (k', v) :: m' => if decide (k' = k) then Ok v else dict_get m' k
  end.

(** [x in c] where [c] is a string (substring test) or a collection of
    strings (membership): the two shapes of [abc.Iterable[str] | str]. *)
Inductive container : Type :=
| CStr (s : str)
| CSeq (xs : list str).

Definition member (x : str) (c : container) : bool :=
  match c with
  | CStr s => contains x s
  | CSeq xs => bool_decide (x ∈ xs)
  end.

(** [l[i]] for an arbitrary integer: negative indices count from the end. *)
Definition getitem_z {A : Type} (l : list A) (i : Z) : outcome A :=
  let n := Z.of_nat (length l) in
  if bool_decide (0 ≤ i < n)%Z then getitem l (Z.to_nat i)
  else if bool_decide (- n ≤ i < 0)%Z then getitem l (Z.to_nat (n + i))
  else Raise IndexError.

(** [l[i] = x] for an arbitrary integer. *)
Definition setitem_z {A : Type} (l : list A) (i : Z) (x : A) : outcome (list A) :=
  let n := Z.of_nat (length l) in
  if bool_decide (0 ≤ i < n)%Z then setitem l (Z.to_nat i) x
  else if bool_decide (- n ≤ i < 0)%Z then setitem l (Z.to_nat (n + i)) x
  else Raise IndexError.

(** A slice bound is clamped into [0 .. len]. *)
Definition slice_bound (len : nat) (i : Z) : nat :=
  if bool_decide (i < 0)%Z then Z.to_nat (Z.max 0 (Z.of_nat len + i))
  else Nat.min len (Z.to_nat i).

(** [l[a:b]] and [l[a:]] on lists *)
Definition slice_list {A : Type} (l : list A) (a b : Z) : list A :=
  let a' := slice_bound (length l) a in
  let b' := slice_bound (length l) b in
  take (b' - a') (drop a' l).
Definition slice_from {A : Type} (l : list A) (a : Z) : list A :=
  drop (slice_bound (length l) a) l.

(** The store of list objects.  A list value in Python is a reference;
    [copy] and [+] allocate a new object, [l[i] = x] updates one in place. *)
Abbreviation loc := nat (only parsing).
Abbreviation store := (gmap nat (list str)) (only parsing).

Definition deref (h : store) (l : loc) : list str := default [] (h !! l).

Definition alloc (h : store) (xs : list str) : loc * store :=
  let l := fresh (dom h) in (l, <[l:=xs]> h).

Definition store_setitem (h : store) (l : loc) (i : Z) (x : str)
  : outcome store :=
  xs ← setitem_z (deref h l) i x; Ok (<[l:=xs]> h).

(** *** [repr] of a string

    [repr(x)] as CPython builds it for a [str]: the text is put between
    single quotes, or between double quotes when [x] has a single quote and
    no double quote; the quote character in use and the backslash are
    preceded by a backslash; tab, newline and carriage return are written
    [\t], [\n] and [\r], the other control characters [\xhh]; a character
    above 127 is kept when the Unicode database of the runtime calls it
    printable ([isprintable]) and written [\xhh], [\uhhhh] or [\Uhhhhhhhh]
    otherwise.  Code points: 9 tab, 10 newline, 13 carriage return, 34 the
    double quote, 39 the single quote, 92 the backslash. *)
Definition hex_digit (n : N) : char :=
  if (n <? 10)%N then (48 + n)%N else (87 + n)%N.

Fixpoint hex (width : nat) (n : N) : str :=
  match width with
  | O => EmptyString
  | S width' => hex width' (n / 16)%N +:+ String (hex_digit (n mod 16)%N) EmptyString
  end.

Definition repr_quote (x : str) : char :=
  if bool_decide (39%N ∈ chars x) && negb (bool_decide (34%N ∈ chars x))
  then 34%N else 39%N.

Definition repr_char (isprintable : char → bool) (quote c : char) : str :=
  if bool_decide (c = quote) || bool_decide (c = 92%N) then String 92%N (String c EmptyString)
  else if bool_decide (c = 9%N) then "\t"
  else if bool_decide (c = 10%N) then "\n"
  else if bool_decide (c = 13%N) then "\r"
  else if (c <? 32)%N || bool_decide (c = 127%N) then "\x" +:+ hex 2 c
  else if (c <? 127)%N then String c EmptyString
  else if isprintable c then String c EmptyString
  else if (c <? 256)%N then "\x" +:+ hex 2 c
  else if (c <? 65536)%N then "\u" +:+ hex 4 c
  else "\U" +:+ hex 8 c.

Definition repr_str (isprintable : char → bool) (x : str) : str :=
  let quote := repr_quote x in
  String quote (join (repr_char isprintable quote <$> chars x))
  +:+ String quote EmptyString.

End Py.
Import Py.

(** ** [translate_string] *)

(** One lattice entry: [(pathcost, n - m, translation, True/False)]. *)
Record node : Type := Node {
  pathcost : nat;
  prev : nat;
  translation : str;
  translated : bool;
}.

Definition symcost : nat := 1.
Definition oovcost : nat := 10.

(** [d.keys()]; the order of a dict's keys is immaterial for [max]. *)
Definition keys (d : gmap str str) : list str := (map_to_list d).*1.

(** Body of the loop over the key length [m]. *)
Definition relax (s : str) (d : gmap str str) (n m : nat)
    (lattice : list node) : outcome (list node) :=
  match d !! slice s (n - m) n with
  | None => Ok lattice
  | Some v =>
      a ← getitem lattice (n - m);
      b ← getitem lattice n;
      if symcost + pathcost a <? pathcost b
      then setitem lattice n (Node (symcost + pathcost a) (n - m) v true)
      else Ok lattice
  end.

(** Body of the loop over the position [n]. *)
Definition arrive (s : str) (d : gmap str str) (maxsym n : nat)
    (lattice : list node) : outcome (list node) :=
  p ← getitem lattice (n - 1);
  let lattice :=
    lattice ++ [Node (oovcost + pathcost p) (n - 1) (slice s (n - 1) n) false] in
  for_in (range 1 (Nat.min (n + 1) (maxsym + 1))) (relax s d n) lattice.

Definition build_lattice (s : str) (d : gmap str str)
  : outcome (list node) :=
  let N := len s in
  maxsym ← Py.max (len <$> keys d);
  for_in (range 1 (N + 1)) (arrive s d maxsym) [Node 0 0 "" true].

(** The back-trace [while n > 0]; each turn of the loop uses one unit of
    [fuel]. *)
Fixpoint backtrace (fuel : nat) (lattice : list node) (n : nat)
    (tl : list str) (ttf : list bool) : outcome (list str * list bool) :=
  if 0 <? n then
    match fuel with
    | 0 => OutOfFuel
    | S fuel' =>
        r ← getitem lattice n;
        backtrace fuel' lattice (prev r) (tl ++ [translation r]) (ttf ++ [translated r])
    end
  else Ok (tl, ttf).

Definition translate_string (fuel : nat) (s : str) (d : gmap str str)
  : outcome (list str * list bool) :=
  lattice ← build_lattice s d;
  '(tl, ttf) ← backtrace fuel lattice (len s) [] [];
  Ok (reverse tl, reverse ttf).

(** ** [attach_tones_to_vowels] *)

(** [ol[v] in vowels or (len(ol[v]) > 1 and ol[v][0] in vowels)] *)
Definition is_vowel (vowels : container) (x : str) : bool :=
  member x vowels ||
  ((1 <? len x) &&
   match x with
   | String c _ => member (String c "") vowels
   | EmptyString => false
   end).

(** The local variables of the loop: the list [ol] (a reference), the
    scan index [v] and the index [t] of the pending tone ([-1]: none). *)
Record scan : Type := Scan {
  ol : nat;
  v : Z;
  t : Z;
}.

(** One turn of the [while] loop. *)
Definition attach_body (tones vowels : container) (searchstep catdir : Z)
    (st : scan) (h : gmap nat (list str)) : outcome (scan * gmap nat (list str)) :=
  olv ← getitem_z (deref h (ol st)) (v st);
  '(ol1, t1, h1) ←
    (if is_vowel vowels olv && bool_decide (0 ≤ t st)%Z then
       olt ← getitem_z (deref h (ol st)) (t st);
       h' ← store_setitem h (ol st) (v st)
              (if bool_decide (0 ≤ catdir)%Z then olv +:+ olt else olt +:+ olv);
       let xs := deref h' (ol st) in
       let '(ol', h'') := alloc h' (slice_list xs 0 (t st) ++ slice_from xs (t st + 1)) in
       Ok (ol', (-1)%Z, h'')
     else Ok (ol st, t st, h));
  t2 ←
    (if bool_decide (v st < Z.of_nat (length (deref h1 ol1)))%Z then
       x ← getitem_z (deref h1 ol1) (v st);
       Ok (if member x tones then v st else t1)
     else Ok t1);
  Ok (Scan ol1 (v st + searchstep)%Z t2, h1).

Fixpoint attach_loop (fuel : nat) (tones vowels : container)
    (searchstep catdir : Z) (st : scan) (h : gmap nat (list str))
  : outcome (nat * gmap nat (list str)) :=
  if bool_decide (0 ≤ v st)%Z && bool_decide (v st < Z.of_nat (length (deref h (ol st))))%Z then
    match fuel with
    | 0 => OutOfFuel
    | S fuel' =>
        '(st', h') ← attach_body tones vowels searchstep catdir st h;
        attach_loop fuel' tones vowels searchstep catdir st' h'
    end
  else Ok (ol st, h).

(** [il] is the reference the caller passes; the result is the reference
    returned, together with the store after the call. *)
Definition attach_tones_to_vowels (fuel : nat) (il : nat)
    (tones vowels : container) (searchstep catdir : Z) (h : gmap nat (list str))
  : outcome (nat * gmap nat (list str)) :=
  let '(ol0, h0) := alloc h (deref h il) in
  let v0 := if bool_decide (0 < searchstep)%Z then 0%Z
            else (Z.of_nat (length (deref h0 ol0)) - 1)%Z in
  attach_loop fuel tones vowels searchstep catdir (Scan ol0 v0 (-1)) h0.

(** The call on a list value: the list is placed in an otherwise empty
    store and the content of the returned reference is read back. *)
Definition attach_tones_value (fuel : nat) (il : list str)
    (tones vowels : container) (searchstep catdir : Z) : outcome (list str) :=
  '(r, h) ← attach_tones_to_vowels fuel 0 tones vowels searchstep catdir {[0 := il]};
  Ok (deref h r).

(** ** The regular-expression fragment used by the reducer

    The pattern is ["|".join(re.escape(k) for k in keys)]: an alternation of
    literals, tried in the order written.  Joining no alternative gives the
    empty pattern, whose single alternative is the empty literal. *)

Definition alternation (ks : list str) : list str :=
  match ks with
  | [] => [""]
  | _ => ks
  end.

(** One match attempt at the current position: the first alternative that
    is a prefix of the remaining text.  After an empty match the engine has
    to advance: an empty match at that same position is refused. *)
Fixpoint re_match (alts : list str) (must_advance : bool) (rest : str)
  : option str :=
  match alts with
  | [] => None
  | k :: alts' =>
      if is_prefix k rest && negb (must_advance && (len k =? 0))
      then Some k
      else re_match alts' must_advance rest
  end.

(** Leftmost match at or after the current position: the text skipped, the
    alternative matched and the text after the match. *)
Fixpoint re_search (alts : list str) (must_advance : bool) (rest : str)
  : option (str * str * str) :=
  match re_match alts must_advance rest with
  | Some k => Some ("", k, slice rest (len k) (len rest))
  | None =>
      match rest with
      | EmptyString => None
      | String c rest' =>
          match re_search alts false rest' with
          | Some (skipped, k, after) => Some (String c skipped, k, after)
          | None => None
          end
      end
  end.

(** The substitution loop of [re.sub(pattern, repl, string)] with a
    callable [repl], called on the matched text of each match in turn. *)
Fixpoint re_sub_loop (fuel : nat) (alts : list str)
    (repl : str → outcome str) (must_advance : bool) (rest : str)
  : outcome str :=
  match re_search alts must_advance rest with
  | None => Ok rest
  | Some (skipped, k, after) =>
      match fuel with
      | 0 => OutOfFuel
      | S fuel' =>
          r ← repl k;
          out ← re_sub_loop fuel' alts repl (len k =? 0) after;
          Ok (skipped +:+ r +:+ out)
      end
  end.

(** Every turn of the loop either consumes a character or follows a turn
    that did, so [2 * len + 2] turns are enough (see [re_sub_loop_fuel]). *)
Definition re_sub (alts : list str) (repl : str → outcome str)
    (text : str) : outcome str :=
  re_sub_loop (2 * len text + 2) alts repl false text.

(** ** The post-processing reducer *)

Inductive warning : Type :=
| CascadingKeysWarning (cascading_keys : list (str * str))
| ExtraKeysWarning (new_keys : gset str).

(** Code that can call [warnings.warn]: the warnings issued so far and the
    outcome.  (With the default warning filter a warning is reported and
    execution continues.) *)
Record eff (A : Type) : Type := Eff {
  warnings : list warning;
  result : outcome A;
}.
Global Arguments Eff {A} warnings result.
Global Arguments warnings {A} e.
Global Arguments result {A} e.

Global Instance eff_ret : MRet eff := λ A a, Eff [] (Ok a).
Global Instance eff_bind : MBind eff := λ A B f m,
  match result m with
  | Ok a => Eff (warnings m ++ warnings (f a)) (result (f a))
  | Raise e => Eff (warnings m) (Raise e)
  | OutOfFuel => Eff (warnings m) OutOfFuel
  end.

Definition lift {A : Type} (o : outcome A) : eff A := Eff [] o.
Definition warn (w : warning) : eff unit := Eff [w] (Ok tt).

(** Inner loop of the cascade check: [for k2 in ordered_keys[i + 1:]]. *)
Definition cascade_inner (k1 current_value : str) (k2 : str)
    (result : list (str * str)) : outcome (list (str * str)) :=
  Ok (if contains current_value k2 then result ++ [(k1, k2)] else result).

(** Body of [for i, k1 in enumerate(ordered_keys[:-1])]. *)
Definition cascade_outer (symbol_inventory_map : odict)
    (ordered_keys : list str) (ik : nat * str)
    (result : list (str * str)) : outcome (list (str * str)) :=
  let '(i, k1) := ik in
  current_value ← dict_get symbol_inventory_map k1;
  if decide (current_value = "") then Ok result
  else for_in (drop (i + 1) ordered_keys) (cascade_inner k1 current_value) result.

Definition _find_cascading_keys_in_symbol_mapping (symbol_inventory_map : odict)
  : outcome (list (str * str)) :=
  let ordered_keys := symbol_inventory_map.*1 in
  for_in (imap pair (removelast ordered_keys))
         (cascade_outer symbol_inventory_map ordered_keys) [].

Definition _get_extra_reduction_keys (original_mapping : gmap str str)
    (reduction_mapping : odict) : gset str :=
  let ipa_original : gset str := list_to_set (map_to_list original_mapping).*2 in
  let ipa_reduction_keys : gset str := list_to_set reduction_mapping.*1 in
  ipa_reduction_keys ∖ ipa_original.

Definition _post_process_reduction (input_string : str)
    (original_translation_mapping : gmap str str)
    (reduction_mapping : odict) : eff str :=
  cascading_keys ← lift (_find_cascading_keys_in_symbol_mapping reduction_mapping);
  _ ← (if 0 <? length cascading_keys
       then warn (CascadingKeysWarning cascading_keys) else mret tt);
  let new_keys := _get_extra_reduction_keys original_translation_mapping reduction_mapping in
  _ ← (if 0 <? size new_keys then warn (ExtraKeysWarning new_keys) else mret tt);
  let pattern := alternation reduction_mapping.*1 in
  lift (re_sub pattern (dict_get reduction_mapping) input_string).

(** ** The code registry and [convert] *)

Definition IPA_KEY : str := "ipa".
Definition ARPABET_KEY : str := "arpabet".
Definition XSAMPA_KEY : str := "xsampa".
Definition DISC_KEY : str := "disc".
Definition CALLHOME_KEY : str := "callhome".
Definition BUCKEYE_KEY : str := "buckeye".
Definition TIMIT_KEY : str := "timit".

Definition CODES : gset str :=
  {[ IPA_KEY; ARPABET_KEY; XSAMPA_KEY; DISC_KEY; CALLHOME_KEY; BUCKEYE_KEY; TIMIT_KEY ]}.

(** The value of an enum member: a pair or a triple.  The third component
    of a triple built by [as_member] is the [language] argument, which may
    be [None]. *)
Inductive code_tuple : Type :=
| Pair (in_code out_code : str)
| Triple (in_code out_code : str) (language : option str).

Global Instance code_tuple_eq_dec : EqDecision code_tuple.
Proof. solve_decision. Defined.

Inductive Phonecodes : Type :=
| IPA2XSAMPA | XSAMPA2IPA
| DISC2IPA | DISC2IPA_NLD | DISC2IPA_ENG | IPA2DISC
| CALLHOME2IPA_ARZ | CALLHOME2IPA_CMN | CALLHOME2IPA_SPA
| IPA2CALLHOME_ARZ | IPA2CALLHOME_CMN | IPA2CALLHOME_SPA
| ARPABET2IPA | IPA2ARPABET
| TIMIT2IPA
| BUCKEYE2IPA | IPA2BUCKEYE.

Global Instance Phonecodes_eq_dec : EqDecision Phonecodes.
Proof. solve_decision. Defined.

(** The members in definition order ([for item in cls]). *)
Definition members : list Phonecodes :=
  [ IPA2XSAMPA; XSAMPA2IPA; DISC2IPA; DISC2IPA_NLD; DISC2IPA_ENG; IPA2DISC;
    CALLHOME2IPA_ARZ; CALLHOME2IPA_CMN; CALLHOME2IPA_SPA;
    IPA2CALLHOME_ARZ; IPA2CALLHOME_CMN; IPA2CALLHOME_SPA;
    ARPABET2IPA; IPA2ARPABET; TIMIT2IPA; BUCKEYE2IPA; IPA2BUCKEYE ].

Definition value (p : Phonecodes) : code_tuple :=
  match p with
  | IPA2XSAMPA => Pair IPA_KEY XSAMPA_KEY
  | XSAMPA2IPA => Pair XSAMPA_KEY IPA_KEY
  | DISC2IPA => Pair DISC_KEY IPA_KEY
  | DISC2IPA_NLD => Triple DISC_KEY IPA_KEY (Some "nld")
  | DISC2IPA_ENG => Triple DISC_KEY IPA_KEY (Some "eng")
  | IPA2DISC => Pair IPA_KEY DISC_KEY
  | CALLHOME2IPA_ARZ => Triple CALLHOME_KEY IPA_KEY (Some "arz")
  | CALLHOME2IPA_CMN => Triple CALLHOME_KEY IPA_KEY (Some "cmn")
  | CALLHOME2IPA_SPA => Triple CALLHOME_KEY IPA_KEY (Some "spa")
  | IPA2CALLHOME_ARZ => Triple IPA_KEY CALLHOME_KEY (Some "arz")
  | IPA2CALLHOME_CMN => Triple IPA_KEY CALLHOME_KEY (Some "cmn")
  | IPA2CALLHOME_SPA => Triple IPA_KEY CALLHOME_KEY (Some "spa")
  | ARPABET2IPA => Pair ARPABET_KEY IPA_KEY
  | IPA2ARPABET => Pair IPA_KEY ARPABET_KEY
  | TIMIT2IPA => Pair TIMIT_KEY IPA_KEY
  | BUCKEYE2IPA => Pair BUCKEYE_KEY IPA_KEY
  | IPA2BUCKEYE => Pair IPA_KEY BUCKEYE_KEY
  end.

(** [Phonecodes(tuple)]: the member with that value. *)
Definition of_value (tup : code_tuple) : option Phonecodes :=
  snd <$> list_find (λ p, value p = tup) members.

(** What the module takes from outside this file: the tables of
    [phonecode_tables] (that module is not part of the sources at hand),
    the string methods [upper] and [strip] of the runtime, which characters
    above 127 [repr] keeps as they are ([isprintable]), and the order in which
    the set [CODES] happens to be iterated. *)
Record environment : Type := {
  _ipa2xsampa : gmap str str;
  _xsampa_and_diac2ipa : gmap str str;
  _disc2ipa : gmap str str;
  _disc2ipa_dutch : gmap str str;
  _disc2ipa_english : gmap str str;
  _ipa2disc : gmap str str;
  _callhome2ipa : str → gmap str str;
  _ipa2callhome : str → gmap str str;
  _arpabet2ipa : gmap str str;
  _ipa2arpabet : gmap str str;
  _buckeye2ipa : gmap str str;
  _ipa2buckeye : gmap str str;
  _timit2ipa : gmap str str;
  _ipa_stressmarkers : container;
  _ipa_vowels : container;
  _ipa_tones : container;
  _callhome_vowels : str → container;
  _arpabet_vowels : container;
  upper : str → str;
  strip : str → str;
  isprintable : char → bool;
  CODES_order : list str;
}.

(** How a tuple is shown in a message: [repr] of its components. *)
Definition repr_tuple (E : environment) (tup : code_tuple) : str :=
  match tup with
  | Pair a b =>
      "(" +:+ repr_str (isprintable E) a +:+ ", " +:+ repr_str (isprintable E) b +:+ ")"
  | Triple a b l =>
      "(" +:+ repr_str (isprintable E) a +:+ ", " +:+ repr_str (isprintable E) b +:+ ", "
      +:+ from_option (repr_str (isprintable E)) "None" l +:+ ")"
  end.

Definition as_member (E : environment) (in_code out_code : str) (language : option str)
  : outcome Phonecodes :=
  match of_value (Triple in_code out_code language) with
  | Some p => Ok p
  | None =>
      let phonecode_tuple := Pair in_code out_code in
      match of_value phonecode_tuple with
      | Some p => Ok p
      | None =>
          Raise (ValueError ("Phonecode pairing " +:+ repr_tuple E phonecode_tuple +:+
            " is not valid. Must convert to/from 'ipa' in supported languages or leave language unspecified."))
      end
  end.

Record AttachStressTonesConfig : Type := {
  tones : container;
  vowels : container;
  searchstep : Z;
  catdir : Z;
}.

Definition _phonecode_lookup (E : environment) (p : Phonecodes) : gmap str str :=
  match p with
  | IPA2XSAMPA => _ipa2xsampa E
  | XSAMPA2IPA => _xsampa_and_diac2ipa E
  | DISC2IPA => _disc2ipa E
  | DISC2IPA_NLD => _disc2ipa_dutch E
  | DISC2IPA_ENG => _disc2ipa_english E
  | IPA2DISC => _ipa2disc E
  | CALLHOME2IPA_ARZ => _callhome2ipa E "arz"
  | CALLHOME2IPA_CMN => _callhome2ipa E "cmn"
  | CALLHOME2IPA_SPA => _callhome2ipa E "spa"
  | IPA2CALLHOME_ARZ => _ipa2callhome E "arz"
  | IPA2CALLHOME_CMN => _ipa2callhome E "cmn"
  | IPA2CALLHOME_SPA => _ipa2callhome E "spa"
  | ARPABET2IPA => _arpabet2ipa E
  | IPA2ARPABET => _ipa2arpabet E
  | BUCKEYE2IPA => _buckeye2ipa E
  | IPA2BUCKEYE => _ipa2buckeye E
  | TIMIT2IPA => _timit2ipa E
  end.

Definition _tone_stress_settings (E : environment) (p : Phonecodes)
  : option AttachStressTonesConfig :=
  match p with
  | CALLHOME2IPA_ARZ => Some (Build_AttachStressTonesConfig (_ipa_stressmarkers E) (_ipa_vowels E) (-1) (-1))
  | CALLHOME2IPA_CMN => Some (Build_AttachStressTonesConfig (_ipa_tones E) (_ipa_vowels E) (-1) 1)
  | CALLHOME2IPA_SPA => Some (Build_AttachStressTonesConfig (_ipa_stressmarkers E) (_ipa_vowels E) (-1) (-1))
  | IPA2CALLHOME_ARZ => Some (Build_AttachStressTonesConfig (CStr "012") (_callhome_vowels E "arz") 1 1)
  | IPA2CALLHOME_CMN => Some (Build_AttachStressTonesConfig (CStr "012345") (_callhome_vowels E "cmn") (-1) 1)
  | IPA2CALLHOME_SPA => Some (Build_AttachStressTonesConfig (CStr "012") (_callhome_vowels E "spa") 1 1)
  | ARPABET2IPA => Some (Build_AttachStressTonesConfig (_ipa_stressmarkers E) (_ipa_vowels E) (-1) (-1))
  | IPA2ARPABET => Some (Build_AttachStressTonesConfig (CStr "012") (_arpabet_vowels E) 1 1)
  | _ => None
  end.

Definition invalid_code_message (E : environment) (code : str) : str :=
  code +:+ " is not a valid phonecode. Choose from: " +:+ join_with " " (CODES_order E).

Definition _verify_code (E : environment) (code : str) : outcome unit :=
  if decide (code ∈ CODES) then Ok tt
  else Raise (ValueError (invalid_code_message E code)).

(** [fuel] bounds the turns of the two [while] loops reached from here. *)
Definition convert (E : environment) (fuel : nat) (s0 c0 c1 : str)
    (language : option str) (post_conversion_mapping : option odict)
  : eff str :=
  _ ← lift (_verify_code E c0);
  _ ← lift (_verify_code E c1);
  phonecode_enum ← lift (as_member E c0 c1 language);
  let input_string := s0 in
  let translation_mapping := _phonecode_lookup E phonecode_enum in
  let input_string :=
    if bool_decide (phonecode_enum ∈ [ARPABET2IPA; BUCKEYE2IPA; TIMIT2IPA])
    then upper E input_string else input_string in
  '(mapped_string, ttf) ← lift (translate_string fuel input_string translation_mapping);
  mapped_string ←
    match _tone_stress_settings E phonecode_enum with
    | Some stress_config =>
        lift (attach_tones_value fuel mapped_string (tones stress_config)
                (vowels stress_config) (searchstep stress_config) (catdir stress_config))
    | None => mret mapped_string
    end;
  let final_string := join mapped_string in
  final_string ←
    match post_conversion_mapping with
    | Some m => _post_process_reduction final_string translation_mapping m
    | None => mret final_string
    end;
  mret (strip E final_string).

Definition timit2ipa (E : environment) (fuel : nat) (x : str)
    (language : option str) (post_conversion_mapping : option odict) : eff str :=
  convert E fuel x TIMIT_KEY IPA_KEY language post_conversion_mapping.

Definition closure_message : str :=
  "Converting to 'timit' is unsupported, because TIMIT closure symbols for stops cannot be determined from text.".

Definition ipa2timit (x : str) (language : option str)
    (post_conversion_mapping : option odict) : eff str :=
  lift (Raise (ValueError closure_message)).

(** ** The rest of the module: member attributes, wrappers, [convertlist] *)

(** The attributes set by [Phonecodes.__init__] from a member's value;
    [language] defaults to [None] for a pair. *)
Definition in_code (p : Phonecodes) : str :=
  match value p with
  | Pair a _ => a
  | Triple a _ _ => a
  end.

Definition out_code (p : Phonecodes) : str :=
  match value p with
  | Pair _ b => b
  | Triple _ b _ => b
  end.

Definition language_of (p : Phonecodes) : option str :=
  match value p with
  | Pair _ _ => None
  | Triple _ _ l => l
  end.

Definition ipa2xsampa (E : environment) (fuel : nat) (x : str)
    (language : option str) (post_conversion_mapping : option odict) : eff str :=
  convert E fuel x IPA_KEY XSAMPA_KEY language post_conversion_mapping.

Definition xsampa2ipa (E : environment) (fuel : nat) (x : str)
    (language : option str) (post_conversion_mapping : option odict) : eff str :=
  convert E fuel x XSAMPA_KEY IPA_KEY language post_conversion_mapping.

Definition disc2ipa (E : environment) (fuel : nat) (x : str)
    (language : option str) (post_conversion_mapping : option odict) : eff str :=
  convert E fuel x DISC_KEY IPA_KEY language post_conversion_mapping.

Definition ipa2disc (E : environment) (fuel : nat) (x : str)
    (language : option str) (post_conversion_mapping : option odict) : eff str :=
  convert E fuel x IPA_KEY DISC_KEY language post_conversion_mapping.

Definition callhome2ipa (E : environment) (fuel : nat) (x : str)
    (language : option str) (post_conversion_mapping : option odict) : eff str :=
  convert E fuel x CALLHOME_KEY IPA_KEY language post_conversion_mapping.

Definition ipa2callhome (E : environment) (fuel : nat) (x : str)
    (language : option str) (post_conversion_mapping : option odict) : eff str :=
  convert E fuel x IPA_KEY CALLHOME_KEY language post_conversion_mapping.

Definition arpabet2ipa (E : environment) (fuel : nat) (x : str)
    (language : option str) (post_conversion_mapping : option odict) : eff str :=
  convert E fuel x ARPABET_KEY IPA_KEY language post_conversion_mapping.

Definition ipa2arpabet (E : environment) (fuel : nat) (x : str)
    (language : option str) (post_conversion_mapping : option odict) : eff str :=
  convert E fuel x IPA_KEY ARPABET_KEY language post_conversion_mapping.

Definition buckeye2ipa (E : environment) (fuel : nat) (x : str)
    (language : option str) (post_conversion_mapping : option odict) : eff str :=
  convert E fuel x BUCKEYE_KEY IPA_KEY language post_conversion_mapping.

Definition ipa2buckeye (E : environment) (fuel : nat) (x : str)
    (language : option str) (post_conversion_mapping : option odict) : eff str :=
  convert E fuel x IPA_KEY BUCKEYE_KEY language post_conversion_mapping.

(** [[convert(s0, c0, c1, language, post_ipa_mapping) for s0 in l0]]: the
    strings are converted in order; the first failure ends the call. *)
Fixpoint convertlist (E : environment) (fuel : nat) (l0 : list str)
    (c0 c1 : str) (language : option str) (post_ipa_mapping : option odict)
  : eff (list str) :=
  match l0 with
  | [] => mret []
  | s0 :: l0' =>
      x ← convert E fuel s0 c0 c1 language post_ipa_mapping;
      xs ← convertlist E fuel l0' c0 c1 language post_ipa_mapping;
      mret (x :: xs)
  end.

(** What a reduction mapping does to one character when the character is
    looked up as a key. *)
Definition char_reduction (m : odict) (c : char) : str :=
  match dict_get m (String c "") with
  | Ok v => v
  | _ => String c ""
  end.

(** Numbers of hits and of misses in a sequence of flags. *)
Definition hits (ttf : list bool) : nat := length (filter (λ b, b = true) ttf).
Definition misses (ttf : list bool) : nat := length (filter (λ b, b = false) ttf).

(** An environment for examples: only the TIMIT and ARPABET tables have
    entries, letters are not recased and nothing is stripped. *)
Definition example_environment : environment :=
  Build_environment ∅ ∅ ∅ ∅ ∅ ∅ (λ _, ∅) (λ _, ∅)
    (<["AE" := "a"]> {["1" := "'"]}) ∅ ∅ ∅ {["AA" := "a"]}
    (CSeq ["'"]) (CSeq ["a"]) (CSeq []) (λ _, CSeq []) (CSeq [])
    id id (λ _, true) [].

(** ** Vocabulary of the statements *)

(** *** Decompositions of a string (for [translate_string]) *)

(** A step of a decomposition: a table hit that consumes the key [k] and
    emits [v], or a miss that consumes and emits one character. *)
Inductive segment : Type :=
| Hit (k v : str)
| Miss (c : char).

Definition consumed (g : segment) : str :=
  match g with
  | Hit k _ => k
  | Miss c => String c ""
  end.

Definition emitted (g : segment) : str :=
  match g with
  | Hit _ v => v
  | Miss c => String c ""
  end.

Definition is_hit (g : segment) : bool :=
  match g with
  | Hit _ _ => true
  | Miss _ => false
  end.

Definition in_table (d : gmap str str) (g : segment) : Prop :=
  match g with
  | Hit k v => d !! k = Some v
  | Miss _ => True
  end.

(** [segs] is a decomposition of [p] over the table [d]. *)
Definition decomposes (d : gmap str str) (segs : list segment) (p : str) : Prop :=
  Forall (in_table d) segs ∧ join (consumed <$> segs) = p.

(** Cost of a sequence of hit flags, and of a decomposition. *)
Definition flag_cost (b : bool) : nat := if b then symcost else oovcost.
Definition flags_cost (ttf : list bool) : nat := sum_list_with flag_cost ttf.
Definition path_cost (segs : list segment) : nat := flags_cost (is_hit <$> segs).

(** [c] is the least cost of a decomposition of [p]. *)
Definition min_cost (d : gmap str str) (p : str) (c : nat) : Prop :=
  (∃ segs, decomposes d segs p ∧ path_cost segs = c) ∧
  (∀ segs, decomposes d segs p → c ≤ path_cost segs).

(** The cost recorded at position [i] of a lattice. *)
Definition cost_at (L : list node) (i : nat) : nat := from_option pathcost 0 (L !! i).

(** The arrival record at [n] chosen by the scan [m = 1, 2, ...]: either
    the initial untranslatable record, kept because no key ending at [n] is
    strictly cheaper, or the hit of some length [m], which is strictly
    cheaper than the initial record and than every shorter key, and at
    most as expensive as every longer one. *)
Definition first_best (s : str) (d : gmap str str) (c : nat → nat)
    (n : nat) (r : node) : Prop :=
  (r = Node (oovcost + c (n - 1)) (n - 1) (slice s (n - 1) n) false ∧
   ∀ m, 1 ≤ m ≤ n → is_Some (d !! slice s (n - m) n) →
        pathcost r ≤ symcost + c (n - m))
  ∨
  (∃ m v, 1 ≤ m ≤ n ∧ d !! slice s (n - m) n = Some v ∧
     r = Node (symcost + c (n - m)) (n - m) v true ∧
     pathcost r < oovcost + c (n - 1) ∧
     (∀ m', 1 ≤ m' < m → is_Some (d !! slice s (n - m') n) →
            pathcost r < symcost + c (n - m')) ∧
     (∀ m', m < m' ≤ n → is_Some (d !! slice s (n - m') n) →
            pathcost r ≤ symcost + c (n - m'))).

(** The record the scan over the lengths [ms] leaves at position [n],
    started from the record [r]; [c] gives the costs of the earlier
    positions. *)
Definition scan_step (s : str) (d : gmap str str) (c : nat → nat)
    (n : nat) (r : node) (m : nat) : node :=
  match d !! slice s (n - m) n with
  | Some v =>
      if symcost + c (n - m) <? pathcost r
      then Node (symcost + c (n - m)) (n - m) v true
      else r
  | None => r
  end.

Definition scan_from (s : str) (d : gmap str str) (c : nat → nat)
    (n : nat) (r : node) (ms : list nat) : node :=
  foldl (scan_step s d c n) r ms.

Definition arrival (s : str) (d : gmap str str) (maxsym : nat)
    (L : list node) (n : nat) : node :=
  scan_from s d (cost_at L) n
    (Node (oovcost + cost_at L (n - 1)) (n - 1) (slice s (n - 1) n) false)
    (range 1 (Nat.min (n + 1) (maxsym + 1))).

(** The lattice after the positions [1 .. k]. *)
Fixpoint lattice_upto (s : str) (d : gmap str str) (maxsym k : nat)
  : list node :=
  match k with
  | 0 => [Node 0 0 "" true]
  | S k' =>
      let L := lattice_upto s d maxsym k' in
      L ++ [arrival s d maxsym L k]
  end.

(** *** Merges (for [attach_tones_to_vowels]) *)

(** [ol[v] + ol[t] if catdir >= 0 else ol[t] + ol[v]] *)
Definition attached (catdir : Z) (xv xt : str) : str :=
  if bool_decide (0 ≤ catdir)%Z then xv +:+ xt else xt +:+ xv.

(** One merge: a tone [xt] leaves its slot and is concatenated onto a
    vowel [xv] that comes later in the scan direction; every other element
    keeps its place. *)
Inductive merge_step (tones vowels : container) (searchstep catdir : Z)
  : list str → list str → Prop :=
| merge_forward A xt B xv C :
    (0 < searchstep)%Z → member xt tones = true → is_vowel vowels xv = true →
    merge_step tones vowels searchstep catdir
      (A ++ xt :: B ++ xv :: C) (A ++ B ++ attached catdir xv xt :: C)
| merge_backward A xv B xt C :
    (searchstep < 0)%Z → member xt tones = true → is_vowel vowels xv = true →
    merge_step tones vowels searchstep catdir
      (A ++ xv :: B ++ xt :: C) (A ++ attached catdir xv xt :: B ++ C).

(** Any number of merges. *)
Definition merges (tones vowels : container) (searchstep catdir : Z)
  : list str → list str → Prop :=
  rtc (merge_step tones vowels searchstep catdir).

(** The pending index [t], when there is one, is the slot of a tone. *)
Definition pending_tone (tones : container) (xs : list str) (t : Z) : Prop :=
  (0 ≤ t)%Z → ∃ xt, xs !! Z.to_nat t = Some xt ∧ member xt tones = true.


(** *** The single pass (for the reducer) *)

(** A piece of the input text: a key occurrence replaced by its value, or
    a character kept as it is. *)
Inductive piece : Type :=
| Replaced (k v : str)
| Kept (c : char).

Definition source (p : piece) : str :=
  match p with
  | Replaced k _ => k
  | Kept c => String c ""
  end.

Definition target (p : piece) : str :=
  match p with
  | Replaced _ v => v
  | Kept c => String c ""
  end.

(** The key [k] can match at the start of [rest].  The empty key matches
    the empty text; right after an empty match ([adv]) a second empty
    match at the same position does not count. *)
Definition matches_at (adv : bool) (rest k : str) : Prop :=
  is_prefix k rest = true ∧ (adv = true → k ≠ "").

(** [(k, v)] is the entry declared first among those whose key can match. *)
Definition first_match (m : odict) (adv : bool) (rest k v : str) : Prop :=
  ∃ m1 m2, m = m1 ++ (k, v) :: m2 ∧ matches_at adv rest k ∧
           Forall (λ e, ¬ matches_at adv rest e.1) m1.

Definition no_match (m : odict) (adv : bool) (rest : str) : Prop :=
  Forall (λ e, ¬ matches_at adv rest e.1) m.

(** One pass over the text, left to right.  At each position the entry
    declared first among the matching ones is replaced and the pass goes
    on behind the occurrence; where no key matches, one character is kept.
    The pieces are cut from the input only: a value put in the output is
    never looked at again. *)
Inductive single_pass (m : odict) : bool → str → list piece → Prop :=
| pass_end adv :
    no_match m adv "" → single_pass m adv "" []
| pass_replace adv rest k v ps :
    first_match m adv rest k v →
    single_pass m (len k =? 0)
      (slice rest (len k) (len rest)) ps →
    single_pass m adv rest (Replaced k v :: ps)
| pass_keep adv c rest ps :
    no_match m adv (String c rest) →
    single_pass m false rest ps →
    single_pass m adv (String c rest) (Kept c :: ps).

(** Size of what a pass has left to do: an empty match does not shorten
    the text, but forbids the next empty match at that position. *)
Definition todo (adv : bool) (rest : str) : nat :=
  2 * len rest + (if adv then 0 else 1).

(** * Properties *)

(** ** The functions on small inputs *)

(** Lengths and positions count code points: an IPA letter, a stress mark
    or an accented letter is one character. *)
Example len_code_points :
  chars "ɔɪˈé" = [596; 618; 712; 233]%N ∧ len "ɔɪˈé" = 4 ∧ slice "ɔɪˈé" 1 3 = "ɪˈ".
Proof. by vm_compute. Qed.

Example translate_one_miss :
  translate_string 1 "é" {["a" := "b"]} = Ok (["é"], [false]).
Proof. vm_compute. reflexivity. Qed.

Example translate_miss_then_key :
  translate_string 13 "éaaaaaaaaaaaa"
    (<["éa" := "X"]> (<["a" := "A"]> {["aaaaaaaaaaaa" := "Y"]}))
  = Ok (["é"; "Y"], [false; true]).
Proof. vm_compute. reflexivity. Qed.

Example attach_first_character :
  attach_tones_value 2 ["ɔɪ"; "ˈ"] (CSeq ["ˈ"]) (CSeq ["ɔ"]) (-1) (-1) = Ok ["ˈɔɪ"].
Proof. vm_compute. reflexivity. Qed.

Example reduce_ipa :
  result (_post_process_reduction "ɑæd" ∅ [("ɑ", "a"); ("æ", "e")]) = Ok "aed".
Proof. vm_compute. reflexivity. Qed.

Example reduce_empty_key :
  result (_post_process_reduction "é" ∅ [("", "-")]) = Ok "-é-".
Proof. vm_compute. reflexivity. Qed.

Example repr_plain : repr_str (λ _, true) "ipa" = "'ipa'".
Proof. vm_compute. reflexivity. Qed.

(** A single quote inside: double quotes (code point 34) around, and the
    backslash doubled. *)
Example repr_quotes :
  repr_str (λ _, true) "a'b\c" = String 34%N ("a'b\\c" +:+ String 34%N "").
Proof. vm_compute. reflexivity. Qed.

Example repr_not_printable :
  repr_str (λ _, false) "é\ɔ" = "'\xe9\\\u0254'".
Proof. vm_compute. reflexivity. Qed.

Example translate_ab :
  translate_string 2 "ab" {["ab" := "X"]} = Ok (["X"], [true]).
Proof. vm_compute. reflexivity. Qed.

Example translate_tie :
  translate_string 3 "abc" (<["ab" := "X"]> {["bc" := "Y"]}) = Ok (["X"; "c"], [true; false]).
Proof. vm_compute. reflexivity. Qed.

Example translate_empty_table :
  translate_string 3 "abc" ∅ = Raise (ValueError "max() arg is an empty sequence").
Proof. vm_compute. reflexivity. Qed.

Example attach_forward :
  attach_tones_value 5 ["1"; "a"; "b"; "2"] (CStr "012") (CSeq ["a"; "e"]) 1 1
  = Ok ["a1"; "b"; "2"].
Proof. vm_compute. reflexivity. Qed.

Example attach_backward :
  attach_tones_value 5 ["1"; "a"; "b"; "2"] (CStr "012") (CSeq ["a"; "e"]) (-1) (-1)
  = Ok ["1"; "2a"; "b"].
Proof. vm_compute. reflexivity. Qed.

Example reduce_no_cascade :
  _post_process_reduction "a" ∅ [("a", "b"); ("b", "c")]
  = Eff [CascadingKeysWarning [("a", "b")]; ExtraKeysWarning {["a"; "b"]}] (Ok "b").
Proof. vm_compute. reflexivity. Qed.

Example reduce_order :
  result (_post_process_reduction "abc" ∅ [("a", "x"); ("b", "y"); ("ab", "z")])
  = Ok "xyc".
Proof. vm_compute. reflexivity. Qed.

Example reduce_empty_mapping :
  _post_process_reduction "a" ∅ [] = Eff [] (Raise (KeyError "")).
Proof. vm_compute. reflexivity. Qed.

Example re_sub_empty_key :
  re_sub ["" ; "ab"; "a"] (λ k, Ok ("<" +:+ k +:+ ">")) "aab" = Ok "<><a><><ab><>".
Proof. vm_compute. reflexivity. Qed.

Example re_sub_empty_key2 :
  re_sub ["" ; "a"] (λ k, Ok ("<" +:+ k +:+ ">")) "ba" = Ok "<>b<><a><>".
Proof. vm_compute. reflexivity. Qed.


(** ** Strings as lists of characters *)

Section strings.
Implicit Types s p q k : str.

Lemma chars_inj s1 s2 : chars s1 = chars s2 → s1 = s2.
Proof.
  revert s2. induction s1 as [|c s1 IH]; intros [|c' s2]; try done.
  intros [= -> H]. f_equal. by apply IH.
Qed.

Lemma chars_app s1 s2 : chars (s1 +:+ s2) = chars s1 ++ chars s2.
Proof.
  unfold chars. induction s1 as [|c s1 IH]; [done|].
  change (String c s1 +:+ s2) with (String c (s1 +:+ s2)). cbn. by rewrite IH.
Qed.

Lemma chars_length s : length (chars s) = len s.
Proof. unfold chars. induction s as [|c s IH]; [done|]. cbn. by rewrite IH. Qed.

Lemma chars_str_drop n s : chars (str_drop n s) = drop n (chars s).
Proof. revert s. induction n as [|n IH]; intros [|c s]; cbn; by rewrite ?IH. Qed.

Lemma chars_str_take m s : chars (str_take m s) = take m (chars s).
Proof. revert s. induction m as [|m IH]; intros [|c s]; cbn; by rewrite ?IH. Qed.

Lemma chars_substring n m s :
  chars (substring n m s) = take m (drop n (chars s)).
Proof. unfold substring. by rewrite chars_str_take, chars_str_drop. Qed.

Lemma chars_slice s a b : chars (slice s a b) = take (b - a) (drop a (chars s)).
Proof. apply chars_substring. Qed.

Lemma app_empty_r s : s +:+ "" = s.
Proof. apply chars_inj. by rewrite chars_app, app_nil_r. Qed.

Lemma str_app_assoc s1 s2 s3 : (s1 +:+ s2) +:+ s3 = s1 +:+ s2 +:+ s3.
Proof. apply chars_inj. by rewrite !chars_app, app_assoc. Qed.

Lemma str_app_length s1 s2 :
  len (s1 +:+ s2) = len s1 + len s2.
Proof. by rewrite <- !chars_length, chars_app, length_app. Qed.

Lemma slice_length s a b :
  a ≤ b → b ≤ len s → len (slice s a b) = b - a.
Proof.
  intros. rewrite <- chars_length, chars_slice, length_take, length_drop, chars_length. lia.
Qed.

Lemma slice_all s : slice s 0 (len s) = s.
Proof.
  apply chars_inj. rewrite chars_slice, drop_0, Nat.sub_0_r, <- chars_length.
  apply firstn_all.
Qed.

Lemma slice_empty s a : slice s a a = "".
Proof. apply chars_inj. by rewrite chars_slice, Nat.sub_diag. Qed.

(** A prefix splits at any earlier position. *)
Lemma slice_split s a n : a ≤ n → slice s 0 n = slice s 0 a +:+ slice s a n.
Proof.
  intros. apply chars_inj. rewrite chars_app, !chars_slice, !drop_0, !Nat.sub_0_r.
  rewrite <- (take_drop a (take n (chars s))) at 1.
  rewrite take_take, skipn_firstn_comm. f_equal. f_equal. lia.
Qed.

(** The last piece of a split prefix is the slice that ends there. *)
Lemma slice_suffix s n q k :
  n ≤ len s → slice s 0 n = q +:+ k →
  len k ≤ n ∧ q = slice s 0 (n - len k) ∧
  k = slice s (n - len k) n.
Proof.
  intros Hn Hq.
  assert (Hlen : len q + len k = n).
  { rewrite <- str_app_length, <- Hq, slice_length; lia. }
  assert (Hsplit := slice_split s (n - len k) n ltac:(lia)).
  rewrite Hq in Hsplit.
  assert (Hc : chars q ++ chars k
               = chars (slice s 0 (n - len k))
                 ++ chars (slice s (n - len k) n)).
  { by rewrite <- !chars_app, Hsplit. }
  apply app_inj_1 in Hc as [Hc1 Hc2].
  - split; [lia|]. split; by apply chars_inj.
  - rewrite !chars_length, slice_length; lia.
Qed.

Lemma slice_one s n :
  1 ≤ n → n ≤ len s → ∃ c, slice s (n - 1) n = String c "".
Proof.
  intros H1 H2. assert (Hl := slice_length s (n - 1) n ltac:(lia) H2).
  destruct (slice s (n - 1) n) as [|c [|c' r]]; cbn in Hl; try lia. by exists c.
Qed.

Lemma join_nil : join [] = "".
Proof. done. Qed.

Lemma join_cons x l : join (x :: l) = x +:+ join l.
Proof. destruct l; cbn; [by rewrite app_empty_r|done]. Qed.

Lemma join_app l1 l2 : join (l1 ++ l2) = join l1 +:+ join l2.
Proof.
  induction l1 as [|x l1 IH]; [done|].
  by rewrite <- app_comm_cons, !join_cons, IH, str_app_assoc.
Qed.

Lemma join_singleton x : join [x] = x.
Proof. done. Qed.

End strings.

(** ** [translate_string]: the lattice *)

Lemma bind_Ok {A B : Type} (a : A) (f : A → outcome B) : (Ok a ≫= f) = f a.
Proof. done. Qed.

Ltac bind_ok := rewrite ?bind_Ok; cbv beta.

Section lattice.
Context (s : str) (d : gmap str str).

Lemma foldl_max_le a l :
  a ≤ foldl Nat.max a l ∧ ∀ x, x ∈ l → x ≤ foldl Nat.max a l.
Proof.
  revert a. induction l as [|y l IH]; intros a; cbn.
  - split; [lia|]. intros x Hx. by apply elem_of_nil in Hx.
  - destruct (IH (Nat.max a y)) as [H1 H2]. split; [lia|].
    intros x [->|Hx]%elem_of_cons; [lia|]. by apply H2.
Qed.

Lemma max_keys_empty :
  Py.max (len <$> keys (∅ : gmap str str))
  = Raise (ValueError "max() arg is an empty sequence").
Proof. unfold keys. by rewrite map_to_list_empty. Qed.

Lemma max_keys_nonempty :
  d ≠ ∅ →
  ∃ maxsym, Py.max (len <$> keys d) = Ok maxsym ∧
            ∀ k v, d !! k = Some v → len k ≤ maxsym.
Proof.
  intros Hd. unfold keys.
  destruct (len <$> (map_to_list d).*1) as [|x l] eqn:E.
  - apply fmap_nil_inv, fmap_nil_inv, map_to_list_empty_iff in E. done.
  - exists (foldl Nat.max x l). split; [done|]. intros k v Hk.
    assert (Hin : len k ∈ x :: l).
    { rewrite <- E. apply list_elem_of_fmap. exists k. split; [done|].
      apply list_elem_of_fmap. exists (k, v). split; [done|].
      by apply elem_of_map_to_list. }
    destruct (foldl_max_le x l) as [H1 H2].
    apply elem_of_cons in Hin as [->|Hin]; [done|]. by apply H2.
Qed.

Lemma cost_at_app_l L L' i : i < length L → cost_at (L ++ L') i = cost_at L i.
Proof. intros. unfold cost_at. by rewrite lookup_app_l. Qed.

Lemma cost_at_lookup L i r : L !! i = Some r → cost_at L i = pathcost r.
Proof. unfold cost_at. by intros ->. Qed.

(** One turn of the inner loop rewrites the last record as [scan_step]. *)
Lemma relax_last L n m r :
  length L = n → 1 ≤ m ≤ n →
  relax s d n m (L ++ [r]) = Ok (L ++ [scan_step s d (cost_at L) n r m]).
Proof.
  intros HL Hm. unfold relax, scan_step.
  destruct (d !! slice s (n - m) n) as [v|]; [|done].
  destruct (lookup_lt_is_Some_2 L (n - m) ltac:(lia)) as [a Ha].
  unfold getitem. rewrite (lookup_app_l L [r] (n - m)), Ha by lia. bind_ok.
  rewrite (cost_at_lookup _ _ _ Ha).
  assert ((L ++ [r]) !! n = Some r) as ->.
  { rewrite lookup_app_r by lia. by replace (n - length L) with 0 by lia. }
  bind_ok. destruct (symcost + pathcost a <? pathcost r); [|done].
  unfold setitem. rewrite decide_True by (rewrite length_app; cbn; lia).
  f_equal. rewrite insert_app_r_alt by lia.
  by replace (n - length L) with 0 by lia.
Qed.

Lemma relax_all L n ms r :
  length L = n → Forall (λ m, 1 ≤ m ≤ n) ms →
  for_in ms (relax s d n) (L ++ [r]) = Ok (L ++ [scan_from s d (cost_at L) n r ms]).
Proof.
  intros HL Hms. revert r. induction Hms as [|m ms Hm _ IH]; intros r; [done|].
  cbn [for_in]. rewrite relax_last by done. bind_ok. apply IH.
Qed.

Lemma range_bounds a b m : m ∈ range a b ↔ a ≤ m < b.
Proof. unfold range. rewrite elem_of_seq. lia. Qed.

Lemma arrive_spec maxsym L n :
  length L = n → 1 ≤ n →
  arrive s d maxsym n L = Ok (L ++ [arrival s d maxsym L n]).
Proof.
  intros HL Hn. unfold arrive, arrival.
  destruct (lookup_lt_is_Some_2 L (n - 1) ltac:(lia)) as [p Hp].
  unfold getitem. rewrite Hp. bind_ok. rewrite (cost_at_lookup _ _ _ Hp).
  apply relax_all; [done|]. apply Forall_forall. intros m Hm%range_bounds. lia.
Qed.

Lemma lattice_upto_length maxsym k : length (lattice_upto s d maxsym k) = S k.
Proof. induction k as [|k IH]; [done|]. cbn. rewrite length_app, IH. cbn. lia. Qed.

Lemma build_upto maxsym k :
  for_in (range 1 (k + 1)) (arrive s d maxsym) [Node 0 0 "" true]
  = Ok (lattice_upto s d maxsym k).
Proof.
  induction k as [|k IH]; [done|].
  unfold range in *. replace (S k + 1 - 1) with (S k) by lia.
  replace (k + 1 - 1) with k in IH by lia.
  rewrite seq_S.
  assert (Happ : ∀ xs ys (st : list node),
    for_in (xs ++ ys) (arrive s d maxsym) st
    = st' ← for_in xs (arrive s d maxsym) st; for_in ys (arrive s d maxsym) st').
  { induction xs as [|x xs IHxs]; intros ys st; cbn; [done|].
    destruct (arrive s d maxsym x st); cbn; [apply IHxs|done..]. }
  rewrite Happ, IH. cbn.
  rewrite arrive_spec; [done|by rewrite lattice_upto_length|lia].
Qed.

Lemma build_lattice_nonempty :
  d ≠ ∅ →
  ∃ maxsym, build_lattice s d = Ok (lattice_upto s d maxsym (len s)) ∧
            ∀ k v, d !! k = Some v → len k ≤ maxsym.
Proof.
  intros Hd. destruct (max_keys_nonempty Hd) as (maxsym & Hmax & Hle).
  exists maxsym. split; [|done]. unfold build_lattice. rewrite Hmax. cbn.
  apply build_upto.
Qed.

(** Later positions do not touch earlier records. *)
Lemma lattice_upto_lookup maxsym k n :
  n ≤ k → lattice_upto s d maxsym k !! n = lattice_upto s d maxsym n !! n.
Proof.
  induction 1 as [|k Hk IH]; [done|]. cbn.
  rewrite lookup_app_l by (rewrite lattice_upto_length; lia). done.
Qed.

Lemma lattice_upto_zero maxsym k :
  lattice_upto s d maxsym k !! 0 = Some (Node 0 0 "" true).
Proof. by rewrite (lattice_upto_lookup maxsym k 0) by lia. Qed.

Lemma lattice_upto_succ maxsym k n :
  S n ≤ k →
  lattice_upto s d maxsym k !! S n
  = Some (arrival s d maxsym (lattice_upto s d maxsym n) (S n)).
Proof.
  intros. rewrite lattice_upto_lookup by done. cbn.
  rewrite lookup_app_r by (rewrite lattice_upto_length; lia).
  by rewrite lattice_upto_length, Nat.sub_diag.
Qed.

Lemma cost_at_upto maxsym k n i :
  i ≤ n → n ≤ k →
  cost_at (lattice_upto s d maxsym n) i = cost_at (lattice_upto s d maxsym k) i.
Proof.
  intros. unfold cost_at.
  by rewrite (lattice_upto_lookup maxsym k i), (lattice_upto_lookup maxsym n i) by lia.
Qed.

End lattice.

(** ** [translate_string]: the record chosen at each position *)

Section scan.
Context (s : str) (d : gmap str str).

Lemma scan_from_ext c c' n r ms :
  (∀ m, m ∈ ms → c (n - m) = c' (n - m)) →
  scan_from s d c n r ms = scan_from s d c' n r ms.
Proof.
  revert r. induction ms as [|m ms IH]; intros r Hc; [done|].
  cbn. unfold scan_from in IH. rewrite IH.
  - f_equal. unfold scan_step. rewrite (Hc m); [done|]. apply elem_of_cons; auto.
  - intros m' Hm'. apply Hc. apply elem_of_cons; auto.
Qed.

Lemma scan_step_cases c n r m :
  (∃ v, d !! slice s (n - m) n = Some v ∧ symcost + c (n - m) < pathcost r ∧
        scan_step s d c n r m = Node (symcost + c (n - m)) (n - m) v true)
  ∨
  (scan_step s d c n r m = r ∧
   (is_Some (d !! slice s (n - m) n) → pathcost r ≤ symcost + c (n - m))).
Proof.
  unfold scan_step. destruct (d !! slice s (n - m) n) as [v|].
  - destruct (symcost + c (n - m) <? pathcost r) eqn:Hlt.
    + apply Nat.ltb_lt in Hlt. left. by exists v.
    + apply Nat.ltb_ge in Hlt. by right.
  - right. split; [done|]. by intros [? ?].
Qed.

(** The scan keeps the start record unless some hit is strictly cheaper;
    the hit it ends with is the first of the cheapest ones. *)
Lemma scan_from_first c n r ms :
  (scan_from s d c n r ms = r ∧
   ∀ m, m ∈ ms → is_Some (d !! slice s (n - m) n) → pathcost r ≤ symcost + c (n - m))
  ∨
  (∃ ms1 m ms2 v,
     ms = ms1 ++ m :: ms2 ∧ d !! slice s (n - m) n = Some v ∧
     scan_from s d c n r ms = Node (symcost + c (n - m)) (n - m) v true ∧
     symcost + c (n - m) < pathcost r ∧
     (∀ m', m' ∈ ms1 → is_Some (d !! slice s (n - m') n) →
            symcost + c (n - m) < symcost + c (n - m')) ∧
     (∀ m', m' ∈ ms2 → is_Some (d !! slice s (n - m') n) →
            symcost + c (n - m) ≤ symcost + c (n - m'))).
Proof.
  revert r. induction ms as [|m0 ms IH]; intros r.
  { left. split; [done|]. intros m Hm. by apply elem_of_nil in Hm. }
  change (scan_from s d c n r (m0 :: ms))
    with (scan_from s d c n (scan_step s d c n r m0) ms).
  destruct (IH (scan_step s d c n r m0))
    as [[Heq Hall]|(ms1 & m & ms2 & v & -> & Hv & Heq & Hlt' & H1 & H2)];
  destruct (scan_step_cases c n r m0) as [(v0 & Hk & Hlt & Hstep)|[Hstep Hge]];
  rewrite Heq; rewrite Hstep in *; cbn [pathcost] in *.
  - right. exists [], m0, ms, v0. do 4 (split; [done|]). split; [|done].
    intros m' Hm'. by apply elem_of_nil in Hm'.
  - left. split; [done|]. intros m [->|Hm]%elem_of_cons Hs; [by apply Hge|by apply Hall].
  - right. exists (m0 :: ms1), m, ms2, v. do 3 (split; [done|]). split; [lia|].
    split; [|done]. intros m' [->|Hm']%elem_of_cons Hs; [lia|by apply H1].
  - right. exists (m0 :: ms1), m, ms2, v. do 4 (split; [done|]).
    split; [|done]. intros m' [->|Hm']%elem_of_cons Hs; [|by apply H1].
    specialize (Hge Hs). lia.
Qed.

Lemma seq_split_mem a len l1 x l2 :
  seq a len = l1 ++ x :: l2 →
  a ≤ x < a + len ∧ (∀ y, a ≤ y < x → y ∈ l1) ∧ (∀ y, x < y < a + len → y ∈ l2).
Proof.
  revert a len. induction l1 as [|z l1 IH]; intros a [|len] H; cbn in H; try done.
  - injection H as <- <-. split; [lia|]. split; [lia|].
    intros y Hy. apply elem_of_seq. lia.
  - injection H as <- H. apply IH in H as (H0 & H1 & H2).
    split; [lia|]. split.
    + intros y Hy. destruct (decide (y = a)) as [->|]; [left|right; apply H1; lia].
    + intros y Hy. apply H2. lia.
Qed.

(** The record left at [n] by [arrive], read against the final costs. *)
Lemma arrival_first_best maxsym k n :
  (∀ key v, d !! key = Some v → len key ≤ maxsym) →
  1 ≤ n → n ≤ k → k ≤ len s →
  first_best s d (cost_at (lattice_upto s d maxsym k)) n
    (arrival s d maxsym (lattice_upto s d maxsym (n - 1)) n).
Proof.
  intros Hmax H1 Hnk Hk. unfold arrival.
  set (c := cost_at (lattice_upto s d maxsym k)).
  set (ms := range 1 (Nat.min (n + 1) (maxsym + 1))).
  assert (Hc : ∀ i, i ≤ n - 1 → cost_at (lattice_upto s d maxsym (n - 1)) i = c i).
  { intros i Hi. apply cost_at_upto; lia. }
  rewrite (scan_from_ext _ c) by (intros m Hm%range_bounds; apply Hc; lia).
  rewrite Hc by lia.
  assert (Hin : ∀ m, 1 ≤ m ≤ n → is_Some (d !! slice s (n - m) n) → m ∈ ms).
  { intros m Hm [v Hv]. apply range_bounds. apply Hmax in Hv.
    rewrite slice_length in Hv by lia. lia. }
  destruct (scan_from_first c n
    (Node (oovcost + c (n - 1)) (n - 1) (slice s (n - 1) n) false) ms)
    as [[Heq Hall]|(ms1 & m & ms2 & v & Hms & Hv & Heq & Hlt & Hbefore & Hafter)].
  - left. rewrite Heq. split; [done|]. intros m Hm Hs. apply Hall; [|done]. by apply Hin.
  - right. unfold ms, range in Hms. apply seq_split_mem in Hms as (Hm & Hl1 & Hl2).
    exists m, v. rewrite Heq. cbn [pathcost] in *.
    split; [lia|]. do 3 (split; [done|]). split.
    + intros m' Hm' Hs. apply Hbefore; [|done]. apply Hl1. lia.
    + intros m' Hm' Hs. apply Hafter; [|done]. apply Hl2.
      assert (Hm'' := Hin m' ltac:(lia) Hs). apply range_bounds in Hm''. lia.
Qed.

End scan.

(** ** [translate_string]: least cost and back-trace *)

Section optimal.
Context (s : str) (d : gmap str str) (maxsym : nat).
Context (Hmax : ∀ key v, d !! key = Some v → len key ≤ maxsym).

Local Abbreviation N := (len s).
Local Abbreviation L := (lattice_upto s d maxsym (len s)).

Lemma lattice_record n :
  1 ≤ n → n ≤ N → ∃ r, L !! n = Some r ∧ first_best s d (cost_at L) n r.
Proof.
  intros H1 Hn. destruct n as [|n]; [lia|].
  eexists. split; [by apply lattice_upto_succ|].
  assert (Hfb := arrival_first_best s d maxsym N (S n) Hmax H1 Hn (Nat.le_refl _)).
  by replace (S n - 1) with n in Hfb by lia.
Qed.

Lemma first_best_le c n r :
  first_best s d c n r →
  pathcost r ≤ oovcost + c (n - 1) ∧
  ∀ m, 1 ≤ m ≤ n → is_Some (d !! slice s (n - m) n) → pathcost r ≤ symcost + c (n - m).
Proof.
  intros [[-> Hall]|(m & v & Hm & Hv & -> & Hlt & Hbefore & Hafter)].
  - split; [done|]. apply Hall.
  - cbn [pathcost] in *. split; [lia|]. intros m' Hm' Hs.
    destruct (Nat.lt_total m' m) as [?|[->|?]].
    + apply Nat.lt_le_incl, Hbefore; [lia|done].
    + done.
    + apply Hafter; [lia|done].
Qed.

Lemma path_cost_snoc segs g :
  path_cost (segs ++ [g]) = path_cost segs + flag_cost (is_hit g).
Proof.
  unfold path_cost, flags_cost. rewrite fmap_app, sum_list_with_app. cbn. lia.
Qed.

Lemma decomposes_snoc segs g p :
  decomposes d (segs ++ [g]) p ↔
  ∃ q, decomposes d segs q ∧ in_table d g ∧ p = q +:+ consumed g.
Proof.
  unfold decomposes. rewrite Forall_app, Forall_singleton, fmap_app, join_app.
  cbn [fmap list_fmap]. rewrite join_singleton. split.
  - intros [[? ?] <-]. eauto.
  - intros (q & [? <-] & ? & ->). done.
Qed.

(** No decomposition of a prefix is cheaper than the recorded cost. *)
Lemma lattice_lower_bound segs n :
  n ≤ N → decomposes d segs (slice s 0 n) → cost_at L n ≤ path_cost segs.
Proof.
  revert n. induction segs as [|g segs IH] using rev_ind; intros n Hn Hdec.
  - destruct Hdec as [_ Hj]. cbn in Hj.
    assert (n = 0) as ->.
    { apply (f_equal len) in Hj. rewrite slice_length in Hj by (cbn; lia).
      cbn in Hj. lia. }
    by rewrite (cost_at_lookup _ _ _ (lattice_upto_zero s d maxsym N)).
  - apply decomposes_snoc in Hdec as (q & Hq & Hg & Heq).
    apply slice_suffix in Heq as (Hlen & -> & Hk); [|done].
    specialize (IH (n - len (consumed g)) ltac:(lia) Hq).
    rewrite path_cost_snoc.
    destruct (decide (len (consumed g) = 0)) as [H0|H0].
    { rewrite H0, Nat.sub_0_r in IH. lia. }
    destruct (lattice_record n ltac:(lia) Hn) as (r & Hr & Hfb).
    rewrite (cost_at_lookup _ _ _ Hr).
    apply first_best_le in Hfb as [Hmiss Hhit].
    destruct g as [k v|c]; cbn [consumed is_hit flag_cost in_table] in *.
    + specialize (Hhit (len k) ltac:(lia)).
      rewrite <- Hk, Hg in Hhit. specialize (Hhit ltac:(eauto)). lia.
    + cbn in IH. lia.
Qed.

(** The back-trace from [n] returns a decomposition of the prefix of
    length [n] whose cost is the recorded one. *)
Lemma backtrace_path n :
  n ≤ N → ∀ fuel tl ttf, n ≤ fuel →
  ∃ segs,
    backtrace fuel L n tl ttf
    = Ok (tl ++ reverse (emitted <$> segs), ttf ++ reverse (is_hit <$> segs)) ∧
    decomposes d segs (slice s 0 n) ∧
    Forall (λ g, consumed g ≠ "") segs ∧
    path_cost segs = cost_at L n.
Proof.
  induction n as [n IH] using lt_wf_ind. intros Hn fuel tl ttf Hfuel.
  destruct n as [|n].
  { exists []. destruct fuel; cbn; rewrite !app_nil_r.
    all: split; [done|]; split; [split; [done|by rewrite ?slice_empty]|]; split; [done|].
    all: by rewrite (cost_at_lookup _ _ _ (lattice_upto_zero s d maxsym N)). }
  destruct fuel as [|fuel]; [lia|].
  destruct (lattice_record (S n) ltac:(lia) Hn) as (r & Hr & Hfb).
  cbn [backtrace Nat.ltb Nat.leb]. unfold getitem. rewrite Hr. bind_ok.
  rewrite (cost_at_lookup _ _ _ Hr).
  assert (Hstep : ∃ g, in_table d g ∧ consumed g ≠ "" ∧
            prev r = S n - len (consumed g) ∧ len (consumed g) ≤ S n ∧
            consumed g = slice s (prev r) (S n) ∧
            translation r = emitted g ∧ translated r = is_hit g ∧
            pathcost r = cost_at L (prev r) + flag_cost (is_hit g)).
  { destruct Hfb as [[-> _]|(m & v & Hm & Hv & -> & _)]; cbn [prev translation translated pathcost].
    - destruct (slice_one s (S n) ltac:(lia) Hn) as [c Hc].
      exists (Miss c). rewrite Hc.
      cbn [consumed emitted is_hit in_table flag_cost len].
      repeat split; try done; lia.
    - exists (Hit (slice s (S n - m) (S n)) v).
      cbn [consumed emitted is_hit in_table flag_cost].
      assert (Hl := slice_length s (S n - m) (S n) ltac:(lia) Hn).
      repeat split; try done; try lia.
      intros E. rewrite E in Hl. cbn [len] in Hl. lia. }
  destruct Hstep as (g & Hg & Hne & Hprev & Hlen & Hcons & Htr & Hfl & Hcost).
  assert (Hpos : len (consumed g) ≠ 0).
  { destruct (consumed g); [done|cbn; lia]. }
  destruct (IH (prev r) ltac:(lia) ltac:(lia) fuel
              (tl ++ [translation r]) (ttf ++ [translated r]) ltac:(lia))
    as (segs & Hbt & Hdec & Hall & Hpc).
  exists (segs ++ [g]). rewrite Hbt, !fmap_app, !reverse_app. cbn [fmap list_fmap].
  rewrite !reverse_singleton, <- !app_assoc, Htr, Hfl. cbn [app].
  split; [done|]. split.
  { apply decomposes_snoc. exists (slice s 0 (prev r)). split; [done|].
    split; [done|]. rewrite Hcons. apply slice_split. lia. }
  split; [apply Forall_app; by rewrite Forall_singleton|].
  rewrite path_cost_snoc. lia.
Qed.

(** The recorded cost at [n] is the least cost of a decomposition. *)
Lemma lattice_min_cost n : n ≤ N → min_cost d (slice s 0 n) (cost_at L n).
Proof.
  intros Hn. split.
  - destruct (backtrace_path n Hn n [] [] ltac:(lia)) as (segs & _ & Hdec & _ & Hpc).
    by exists segs.
  - intros segs. by apply lattice_lower_bound.
Qed.

End optimal.

(** ** [translate_string]: the results *)

Lemma build_lattice_empty_table s :
  build_lattice s ∅ = Raise (ValueError "max() arg is an empty sequence").
Proof. unfold build_lattice. by rewrite max_keys_empty. Qed.

(** What a call with a non-empty table returns. *)
Lemma translate_string_path d s fuel :
  d ≠ ∅ → len s ≤ fuel →
  ∃ maxsym segs,
    (∀ key v, d !! key = Some v → len key ≤ maxsym) ∧
    build_lattice s d = Ok (lattice_upto s d maxsym (len s)) ∧
    translate_string fuel s d = Ok (emitted <$> segs, is_hit <$> segs) ∧
    decomposes d segs s ∧
    Forall (λ g, consumed g ≠ "") segs ∧
    path_cost segs = cost_at (lattice_upto s d maxsym (len s)) (len s).
Proof.
  intros Hd Hfuel. destruct (build_lattice_nonempty s d Hd) as (maxsym & Hb & Hmax).
  destruct (backtrace_path s d maxsym Hmax (len s) (Nat.le_refl _)
              fuel [] [] Hfuel) as (segs & Hbt & Hdec & Hne & Hpc).
  exists maxsym, segs. rewrite slice_all in Hdec.
  do 2 (split; [done|]). split; [|done].
  unfold translate_string. rewrite Hb. bind_ok. rewrite Hbt. bind_ok.
  cbn [app]. by rewrite !reverse_involutive.
Qed.

Lemma nonempty_segments_of_empty segs :
  Forall (λ g, consumed g ≠ "") segs → join (consumed <$> segs) = "" → segs = [].
Proof.
  destruct segs as [|g segs]; [done|]. intros Hne Hj.
  apply Forall_cons in Hne as [Hg _]. rewrite fmap_cons, join_cons in Hj.
  destruct (consumed g); [done|discriminate].
Qed.

(** C1 (the code departs from the claim).  The claim holds for every
    non-empty table (X18 below).  With the
    empty table the call does not return a pair at all, not even for the
    empty input: [max] is applied to the empty sequence of key lengths and
    raises, the defect of C8. *)
Lemma translate_string_empty_input_empty_table :
  ¬ ∃ fuel tl ttf, translate_string fuel "" ∅ = Ok (tl, ttf).
Proof. intros (fuel & tl & ttf & H). unfold translate_string in H.
  rewrite build_lattice_empty_table in H. discriminate. Qed.

(** X18 (decomposition).  For every non-empty table [d] and
    every string [s], [translate_string] returns two sequences of equal
    length that come from one decomposition [segs] of [s]: a symbol flagged
    [True] is the table value [d[k]] of a non-empty key [k] that is exactly
    the consumed substring, a symbol flagged [False] is the single character
    consumed, the consumed substrings concatenated are [s], and the empty
    input gives empty sequences. *)
Theorem translate_string_decomposition (d : gmap str str) (s : str) (fuel : nat) :
  d ≠ ∅ → len s ≤ fuel →
  ∃ tl ttf segs,
    translate_string fuel s d = Ok (tl, ttf) ∧
    length tl = length ttf ∧
    tl = emitted <$> segs ∧ ttf = is_hit <$> segs ∧
    Forall (in_table d) segs ∧
    Forall (λ g, consumed g ≠ "") segs ∧
    join (consumed <$> segs) = s ∧
    (s = "" → tl = [] ∧ ttf = []).
Proof.
  intros Hd Hfuel.
  destruct (translate_string_path d s fuel Hd Hfuel)
    as (maxsym & segs & _ & _ & Hts & [Hin Hj] & Hne & _).
  exists (emitted <$> segs), (is_hit <$> segs), segs.
  split; [done|]. split; [by rewrite !length_fmap|].
  do 5 (split; [done|]). intros ->.
  by rewrite (nonempty_segments_of_empty segs Hne Hj).
Qed.

(** The table [{"ab": "X"}] and the input ["ab"]. *)
Lemma translate_string_decomposition_witness :
  ∃ tl ttf segs,
    translate_string 2 "ab" {["ab" := "X"]} = Ok (tl, ttf) ∧
    length tl = length ttf ∧
    tl = emitted <$> segs ∧ ttf = is_hit <$> segs ∧
    Forall (in_table {["ab" := "X"]}) segs ∧
    Forall (λ g, consumed g ≠ "") segs ∧
    join (consumed <$> segs) = "ab" ∧
    ("ab" = "" → tl = [] ∧ ttf = []).
Proof.
  apply (translate_string_decomposition {["ab" := "X"]} "ab" 2).
  - intros H. apply (f_equal (λ m, m !! "ab")) in H. vm_compute in H. discriminate.
  - vm_compute. lia.
Defined.

(** C2 (the code departs from the claim).  The claim holds for every
    non-empty table (X23 below).  For the empty
    table and the input ["ab"] no decomposition is returned, minimal or
    not: the call raises, the defect of C8. *)
Lemma translate_string_ab_empty_table :
  ¬ ∃ fuel tl ttf, translate_string fuel "ab" ∅ = Ok (tl, ttf).
Proof. intros (fuel & tl & ttf & H). unfold translate_string in H.
  rewrite build_lattice_empty_table in H. discriminate. Qed.

(** X23 (least cost).  For every non-empty table and every
    input, the lattice records at each prefix length [n] the least cost of a
    decomposition of the first [n] characters (a hit costs [symcost = 1], a
    miss [oovcost = 10]), and the decomposition returned costs no more than
    any decomposition of the input.  For the table [{"ab": "X"}] and the
    input ["ab"] the result is [(["X"], [True])]. *)
Theorem translate_string_min_cost (d : gmap str str) (s : str) (fuel : nat) :
  d ≠ ∅ → len s ≤ fuel →
  (∃ L tl ttf segs,
    build_lattice s d = Ok L ∧
    length L = S (len s) ∧
    (∀ n, n ≤ len s → min_cost d (slice s 0 n) (cost_at L n)) ∧
    translate_string fuel s d = Ok (tl, ttf) ∧
    tl = emitted <$> segs ∧ ttf = is_hit <$> segs ∧
    decomposes d segs s ∧
    ∀ segs', decomposes d segs' s → flags_cost ttf ≤ path_cost segs') ∧
  translate_string 2 "ab" {["ab" := "X"]} = Ok (["X"], [true]).
Proof.
  intros Hd Hfuel. split; [|by vm_compute].
  destruct (translate_string_path d s fuel Hd Hfuel)
    as (maxsym & segs & Hmax & Hb & Hts & Hdec & _ & Hpc).
  exists (lattice_upto s d maxsym (len s)),
    (emitted <$> segs), (is_hit <$> segs), segs.
  split; [done|]. split; [apply lattice_upto_length|].
  split; [intros n Hn; by apply lattice_min_cost|].
  do 4 (split; [done|]). intros segs' Hdec'.
  fold (path_cost segs). rewrite Hpc.
  apply lattice_lower_bound; [done..|]. by rewrite slice_all.
Qed.

(** The table [{"ab": "X"}] and the input ["abc"]. *)
Lemma translate_string_min_cost_witness :
  (∃ L tl ttf segs,
    build_lattice "abc" {["ab" := "X"]} = Ok L ∧
    length L = S (len "abc") ∧
    (∀ n, n ≤ len "abc" →
          min_cost {["ab" := "X"]} (slice "abc" 0 n) (cost_at L n)) ∧
    translate_string 3 "abc" {["ab" := "X"]} = Ok (tl, ttf) ∧
    tl = emitted <$> segs ∧ ttf = is_hit <$> segs ∧
    decomposes {["ab" := "X"]} segs "abc" ∧
    ∀ segs', decomposes {["ab" := "X"]} segs' "abc" → flags_cost ttf ≤ path_cost segs') ∧
  translate_string 2 "ab" {["ab" := "X"]} = Ok (["X"], [true]).
Proof.
  apply (translate_string_min_cost {["ab" := "X"]} "abc" 3).
  - intros H. apply (f_equal (λ m, m !! "ab")) in H. vm_compute in H. discriminate.
  - vm_compute. lia.
Defined.

(** C3.  A turn of the inner loop changes the lattice only by replacing
    the record at [n] with a hit whose total cost is strictly less than the
    cost recorded there.  Hence the record left at each position [n] is the
    first of the cheapest candidates in scan order ([first_best]): the
    initial untranslatable record unless some key is strictly cheaper, else
    the hit of length [m] that is strictly cheaper than every shorter key
    and at most as expensive as every longer one.  Two ties: at equal cost
    11 the initial record wins over the key ["bc"], and at equal cost 2 the
    key ["c"] wins over the longer key ["bc"]. *)
Theorem translate_string_tie_break (d : gmap str str) (s : str) :
  (∀ n m L L', relax s d n m L = Ok L' →
     L' = L ∨
     ∃ a b v, d !! slice s (n - m) n = Some v ∧
              L !! (n - m) = Some a ∧ L !! n = Some b ∧
              symcost + pathcost a < pathcost b ∧
              L' = <[n := Node (symcost + pathcost a) (n - m) v true]> L) ∧
  (d ≠ ∅ →
   ∃ L, build_lattice s d = Ok L ∧ length L = S (len s) ∧
        ∀ n, 1 ≤ n ≤ len s →
             ∃ r, L !! n = Some r ∧ first_best s d (cost_at L) n r) ∧
  translate_string 3 "abc" (<["ab" := "X"]> {["bc" := "Y"]})
    = Ok (["X"; "c"], [true; false]) ∧
  translate_string 3 "abc" (<["a" := "1"]> (<["ab" := "2"]> (<["c" := "3"]> {["bc" := "4"]})))
    = Ok (["2"; "3"], [true; true]).
Proof.
  split; [|split; [|split; by vm_compute]].
  - intros n m L L'. unfold relax, getitem, setitem.
    destruct (d !! slice s (n - m) n) as [v|]; [|intros [= <-]; by left].
    destruct (L !! (n - m)) as [a|]; [|done]. bind_ok.
    destruct (L !! n) as [b|]; [|done]. bind_ok.
    destruct (symcost + pathcost a <? pathcost b) eqn:Hlt; [|intros [= <-]; by left].
    apply Nat.ltb_lt in Hlt. case_decide; [|done]. intros [= <-].
    right. by exists a, b, v.
  - intros Hd. destruct (build_lattice_nonempty s d Hd) as (maxsym & Hb & Hmax).
    eexists. split; [done|]. split; [apply lattice_upto_length|].
    intros n [H1 Hn]. by apply lattice_record.
Qed.

(** The table [{"ab": "X", "bc": "Y"}] and the input ["abc"]. *)
Lemma translate_string_tie_break_witness :
  ∃ L, build_lattice "abc" (<["ab" := "X"]> {["bc" := "Y"]}) = Ok L ∧
       length L = S (len "abc") ∧
       ∀ n, 1 ≤ n ≤ len "abc" →
            ∃ r, L !! n = Some r ∧
                 first_best "abc" (<["ab" := "X"]> {["bc" := "Y"]}) (cost_at L) n r.
Proof.
  apply (translate_string_tie_break (<["ab" := "X"]> {["bc" := "Y"]}) "abc").
  intros H. apply (f_equal (λ m, m !! "ab")) in H. vm_compute in H. discriminate.
Defined.

Lemma slice_middle p k q :
  slice (p +:+ k +:+ q) (len p) (len p + len k) = k.
Proof.
  apply chars_inj. rewrite chars_slice, !chars_app, <- !chars_length.
  rewrite drop_app_length.
  replace (length (chars p) + length (chars k) - length (chars p))
    with (length (chars k)) by lia.
  apply take_app_length.
Qed.

(** The part of the algorithm after [max] does degrade to misses: with a
    non-empty table none of whose non-empty keys occurs in [s], every
    character of [s] comes back as itself, flagged [False]. *)
Lemma translate_string_all_miss (d : gmap str str) (s : str) (fuel : nat) :
  d ≠ ∅ → len s ≤ fuel →
  (∀ k v a b, d !! k = Some v → k ≠ "" → slice s a b ≠ k) →
  translate_string fuel s d
  = Ok ((λ c, String c "") <$> chars s, (λ _, false) <$> chars s).
Proof.
  intros Hd Hfuel Hnone.
  destruct (translate_string_path d s fuel Hd Hfuel)
    as (maxsym & segs & _ & _ & -> & [Hin Hj] & Hne & _).
  assert (Hmiss : ∀ pre segs', join (consumed <$> pre) +:+ join (consumed <$> segs') = s →
            Forall (in_table d) segs' → Forall (λ g, consumed g ≠ "") segs' →
            segs' = Miss <$> chars (join (consumed <$> segs'))).
  { intros pre segs'. revert pre.
    induction segs' as [|g segs' IH]; intros pre Hs Hin' Hne'; [done|].
    apply Forall_cons in Hin' as [Hg Hin'], Hne' as [Hg' Hne'].
    rewrite fmap_cons, join_cons in Hs |- *. destruct g as [k v|c].
    - cbn [consumed in_table] in *. exfalso.
      apply (Hnone k v (len (join (consumed <$> pre)))
               (len (join (consumed <$> pre)) + len k) Hg Hg').
      rewrite <- Hs. apply slice_middle.
    - cbn [consumed]. change (String c "" +:+ ?x) with (String c x).
      change (chars (String c ?x)) with (c :: chars x). rewrite fmap_cons. f_equal.
      apply (IH (pre ++ [Miss c])); [|done..].
      rewrite fmap_app, join_app, str_app_assoc. exact Hs. }
  specialize (Hmiss [] segs Hj Hin Hne). rewrite Hj in Hmiss. rewrite Hmiss.
  by rewrite <- !list_fmap_compose.
Qed.

(** C8 (the code departs from the claim).  With the empty table
    [translate_string] raises [ValueError] for every input, the empty one
    included: [max] is applied to the empty sequence of key lengths before
    the input is looked at. *)
Theorem translate_string_empty_table_raises (fuel : nat) (s : str) :
  translate_string fuel s ∅ = Raise (ValueError "max() arg is an empty sequence").
Proof. unfold translate_string. by rewrite build_lattice_empty_table. Qed.

(** ** [attach_tones_to_vowels]: one turn of the loop *)

Section list_index.
Context {A : Type}.
Implicit Types l : list A.

Lemma getitem_z_lookup l (i : Z) x :
  (0 ≤ i)%Z → l !! Z.to_nat i = Some x → getitem_z l i = Ok x.
Proof.
  intros Hi Hl. unfold getitem_z, getitem.
  assert (Z.to_nat i < length l) by (by eapply lookup_lt_Some).
  rewrite bool_decide_true by lia. by rewrite Hl.
Qed.

Lemma setitem_z_insert l (i : Z) x :
  (0 ≤ i)%Z → Z.to_nat i < length l → setitem_z l i x = Ok (<[Z.to_nat i:=x]> l).
Proof.
  intros Hi Hl. unfold setitem_z, setitem.
  rewrite bool_decide_true by lia. by rewrite decide_True.
Qed.

Lemma slice_list_take l (t : Z) :
  (0 ≤ t)%Z → Z.to_nat t ≤ length l → slice_list l 0 t = take (Z.to_nat t) l.
Proof.
  intros Ht Hl. unfold slice_list, slice_bound.
  rewrite !bool_decide_false by lia. cbn [Z.to_nat].
  rewrite Nat.min_0_r, drop_0, Nat.sub_0_r. f_equal. lia.
Qed.

Lemma slice_from_drop l (t : Z) :
  (0 ≤ t)%Z → Z.to_nat t ≤ length l → slice_from l t = drop (Z.to_nat t) l.
Proof.
  intros Ht Hl. unfold slice_from, slice_bound.
  rewrite bool_decide_false by lia. f_equal. lia.
Qed.

(** Two positions of a list split it in three. *)
Lemma split_two l i j xi xj :
  i < j → l !! i = Some xi → l !! j = Some xj →
  ∃ l1 l2 l3, l = l1 ++ xi :: l2 ++ xj :: l3 ∧ length l1 = i ∧ length l2 = j - i - 1.
Proof.
  intros Hij Hi Hj.
  assert (Hl := take_drop_middle l i xi Hi).
  assert (Hj' : drop (S i) l !! (j - i - 1) = Some xj).
  { rewrite lookup_drop. by replace (S i + (j - i - 1)) with j by lia. }
  assert (Hl' := take_drop_middle _ _ _ Hj').
  exists (take i l), (take (j - i - 1) (drop (S i) l)), (drop (S (j - i - 1)) (drop (S i) l)).
  split; [by rewrite Hl'|].
  apply lookup_lt_Some in Hi, Hj'. rewrite length_drop in Hj'.
  rewrite !length_take, length_drop. lia.
Qed.

(** Assigning at the later position and removing the earlier one. *)
Lemma set_then_remove_before l1 l2 l3 (xi xj y : A) :
  let l := <[length l1 + S (length l2) := y]> (l1 ++ xi :: l2 ++ xj :: l3) in
  take (length l1) l ++ drop (S (length l1)) l = l1 ++ l2 ++ y :: l3.
Proof.
  cbn zeta.
  assert (<[length l1 + S (length l2) := y]> (l1 ++ xi :: l2 ++ xj :: l3)
          = l1 ++ xi :: l2 ++ y :: l3) as ->.
  { replace (l1 ++ xi :: l2 ++ xj :: l3) with ((l1 ++ xi :: l2) ++ xj :: l3)
      by (by rewrite <- app_assoc).
    rewrite insert_app_r_alt by (rewrite length_app; cbn; lia).
    replace (length l1 + S (length l2) - length (l1 ++ xi :: l2)) with 0
      by (rewrite length_app; cbn; lia).
    by rewrite <- app_assoc. }
  rewrite take_app_length. f_equal.
  replace (S (length l1)) with (length (l1 ++ [xi])) by (rewrite length_app; cbn; lia).
  replace (l1 ++ xi :: l2 ++ y :: l3) with ((l1 ++ [xi]) ++ l2 ++ y :: l3)
    by (by rewrite <- app_assoc).
  apply drop_app_length.
Qed.

(** Assigning at the earlier position and removing the later one. *)
Lemma set_then_remove_after l1 l2 l3 (xi xj y : A) :
  let l := <[length l1 := y]> (l1 ++ xi :: l2 ++ xj :: l3) in
  take (length l1 + S (length l2)) l ++ drop (S (length l1 + S (length l2))) l
  = l1 ++ y :: l2 ++ l3.
Proof.
  cbn zeta.
  assert (<[length l1 := y]> (l1 ++ xi :: l2 ++ xj :: l3)
          = l1 ++ y :: l2 ++ xj :: l3) as ->.
  { rewrite insert_app_r_alt by lia. by rewrite Nat.sub_diag. }
  replace (l1 ++ y :: l2 ++ xj :: l3) with ((l1 ++ y :: l2) ++ xj :: l3)
    by (by rewrite <- app_assoc).
  replace (length l1 + S (length l2)) with (length (l1 ++ y :: l2))
    by (rewrite length_app; cbn; lia).
  rewrite take_app_length.
  replace (S (length (l1 ++ y :: l2))) with (length ((l1 ++ y :: l2) ++ [xj]))
    by (rewrite !length_app; cbn; lia).
  replace ((l1 ++ y :: l2) ++ xj :: l3) with (((l1 ++ y :: l2) ++ [xj]) ++ l3)
    by (by rewrite <- !app_assoc).
  rewrite drop_app_length. by rewrite <- app_assoc.
Qed.

End list_index.

Lemma deref_insert_eq (h : gmap nat (list str)) l xs : deref (<[l:=xs]> h) l = xs.
Proof. unfold deref. by rewrite lookup_insert_eq. Qed.

Lemma deref_lookup (h : gmap nat (list str)) l xs : h !! l = Some xs → deref h l = xs.
Proof. unfold deref. by intros ->. Qed.

Section attach.
Context (tones vowels : container) (searchstep catdir : Z).

(** The effect of one turn on the content of [ol] and on the pending
    index; [D] is any set of objects other than [ol]: they are not touched,
    and a list allocated by the turn is none of them. *)
Lemma attach_body_turn (D : gset nat) st h :
  let xs := deref h (ol st) in
  D ⊆ dom h → ol st ∉ D → is_Some (h !! ol st) →
  (0 ≤ v st)%Z → Z.to_nat (v st) < length xs →
  (t st < Z.of_nat (length xs))%Z →
  ∃ st' h' xv t1,
    attach_body tones vowels searchstep catdir st h = Ok (st', h') ∧
    D ⊆ dom h' ∧ (ol st' ∉ D) ∧ (∀ l, l ∈ D → h' !! l = h !! l) ∧
    is_Some (h' !! ol st') ∧
    v st' = (v st + searchstep)%Z ∧
    xs !! Z.to_nat (v st) = Some xv ∧
    ((is_vowel vowels xv = true ∧ (0 ≤ t st)%Z ∧ t1 = (-1)%Z ∧
      ∃ xt, xs !! Z.to_nat (t st) = Some xt ∧
        deref h' (ol st') =
          take (Z.to_nat (t st)) (<[Z.to_nat (v st) := attached catdir xv xt]> xs)
          ++ drop (S (Z.to_nat (t st))) (<[Z.to_nat (v st) := attached catdir xv xt]> xs))
     ∨ (is_vowel vowels xv && bool_decide (0 ≤ t st)%Z = false ∧ t1 = t st ∧
        deref h' (ol st') = xs)) ∧
    ((t st' = v st ∧
      ∃ x, deref h' (ol st') !! Z.to_nat (v st) = Some x ∧ member x tones = true)
     ∨ t st' = t1).
Proof.
  intros xs HD Hol Hsome Hv0 Hv Ht.
  destruct (lookup_lt_is_Some_2 xs _ Hv) as [xv Hxv].
  unfold attach_body. fold xs. rewrite (getitem_z_lookup xs (v st) xv Hv0 Hxv). bind_ok.
  destruct (is_vowel vowels xv && bool_decide (0 ≤ t st)%Z) eqn:Hm.
  - apply andb_true_iff in Hm as [Hvow Ht0%bool_decide_eq_true].
    destruct (lookup_lt_is_Some_2 xs (Z.to_nat (t st)) ltac:(lia)) as [xt Hxt].
    rewrite (getitem_z_lookup xs (t st) xt Ht0 Hxt). bind_ok.
    unfold store_setitem. fold xs. rewrite setitem_z_insert by done. bind_ok.
    rewrite deref_insert_eq. fold (attached catdir xv xt).
    set (l := <[Z.to_nat (v st) := attached catdir xv xt]> xs).
    set (h1 := <[ol st := l]> h).
    assert (Hlen : length l = length xs) by apply length_insert.
    rewrite slice_list_take, slice_from_drop by lia.
    replace (Z.to_nat (t st + 1)) with (S (Z.to_nat (t st))) by lia.
    set (xs' := take (Z.to_nat (t st)) l ++ drop (S (Z.to_nat (t st))) l).
    unfold alloc. bind_ok. cbn [ol v t].
    set (ol' := fresh (dom h1)). rewrite deref_insert_eq.
    assert (Hfresh : ol' ∉ dom h1) by apply is_fresh.
    assert (Hdom : dom h ⊆ dom h1) by (unfold h1; rewrite dom_insert; set_solver).
    assert (Hframe : D ⊆ dom (<[ol' := xs']> h1) ∧ (ol' ∉ D) ∧
                     (∀ l0, l0 ∈ D → <[ol' := xs']> h1 !! l0 = h !! l0) ∧
                     is_Some (<[ol' := xs']> h1 !! ol')).
    { split; [rewrite dom_insert; set_solver|]. split; [set_solver|].
      split; [|by rewrite lookup_insert_eq].
      intros l0 Hl0. rewrite lookup_insert_ne by set_solver.
      unfold h1. rewrite lookup_insert_ne by set_solver. done. }
    destruct Hframe as (HF1 & HF2 & HF3 & HF4).
    destruct (bool_decide (v st < Z.of_nat (length xs'))%Z) eqn:Hlt.
    + apply bool_decide_eq_true in Hlt.
      destruct (lookup_lt_is_Some_2 xs' (Z.to_nat (v st)) ltac:(lia)) as [x Hx].
      rewrite (getitem_z_lookup xs' (v st) x Hv0 Hx). bind_ok.
      eexists _, _, xv, (-1)%Z. split; [done|]. cbn [ol v t].
      rewrite deref_insert_eq. do 6 (split; [done|]). split.
      * left. do 3 (split; [done|]). by exists xt.
      * destruct (member x tones) eqn:Hmem; [left; split; [done|]; by exists x|by right].
    + bind_ok. eexists _, _, xv, (-1)%Z. split; [done|]. cbn [ol v t].
      rewrite deref_insert_eq. do 6 (split; [done|]). split; [|by right].
      left. do 3 (split; [done|]). by exists xt.
  - bind_ok. fold xs. rewrite bool_decide_true by lia.
    rewrite (getitem_z_lookup xs (v st) xv Hv0 Hxv). bind_ok.
    eexists _, _, xv, (t st). split; [done|]. cbn [ol v t]. fold xs.
    do 6 (split; [done|]). split; [by right|].
    destruct (member xv tones) eqn:Hmem; [left; split; [done|]; by exists xv|by right].
Qed.

Local Abbreviation pending := (pending_tone tones).
Local Abbreviation merges := (merges tones vowels searchstep catdir).

(** A forward scan: the pending tone lies before the scan index. *)
Lemma attach_loop_forward (D : gset nat) fuel : ∀ st h,
  (0 < searchstep)%Z →
  let xs := deref h (ol st) in
  D ⊆ dom h → ol st ∉ D → is_Some (h !! ol st) →
  (0 ≤ v st)%Z → (t st < v st)%Z → pending xs (t st) →
  Z.to_nat (Z.of_nat (length xs) - v st) ≤ fuel →
  ∃ r h',
    attach_loop fuel tones vowels searchstep catdir st h = Ok (r, h') ∧
    merges xs (deref h' r) ∧ is_Some (h' !! r) ∧
    D ⊆ dom h' ∧ (r ∉ D) ∧ ∀ l, l ∈ D → h' !! l = h !! l.
Proof.
  induction fuel as [|fuel IH]; intros st h Hstep xs HD Hol Hsome Hv0 Htv Hpend Hfuel.
  { exists (ol st), h. cbn. fold xs.
    rewrite bool_decide_true, bool_decide_false by lia. cbn. by repeat split. }
  cbn [attach_loop]. fold xs.
  destruct (bool_decide (v st < Z.of_nat (length xs))%Z) eqn:Hguard.
  2:{ rewrite andb_false_r. exists (ol st), h. by repeat split. }
  apply bool_decide_eq_true in Hguard. rewrite bool_decide_true by done. cbn [andb].
  destruct (attach_body_turn D st h HD Hol Hsome Hv0
              ltac:(unfold xs in *; lia) ltac:(unfold xs in *; lia))
    as (st' & h' & xv & t1 & Hbody & HD' & Hol' & Hframe & Hsome' & Hv' & Hxv & Hcontent & Ht').
  fold xs in Hxv, Hcontent. rewrite Hbody. bind_ok.
  set (xs' := deref h' (ol st')) in *.
  assert (Hstep' : merges xs xs' ∧ length xs' ≤ length xs ∧ pending xs' t1 ∧ (t1 < v st)%Z).
  { destruct Hcontent as [(Hvow & Ht0 & -> & xt & Hxt & ->)|(_ & -> & ->)].
    - destruct (Hpend Ht0) as (xt' & Hxt' & Htone).
      rewrite Hxt in Hxt'. injection Hxt' as <-.
      destruct (split_two xs (Z.to_nat (t st)) (Z.to_nat (v st)) xt xv
                  ltac:(lia) Hxt Hxv) as (A & B & C & HABC & HA & HB).
      replace (Z.to_nat (v st)) with (length A + S (length B)) by lia.
      rewrite <- HA, HABC, set_then_remove_before.
      split; [apply rtc_once; by constructor|].
      split; [rewrite !length_app; cbn; rewrite !length_app; cbn; lia|].
      split; [intros ?; lia|lia].
    - by split. }
  destruct Hstep' as (Hm & Hlen & Hpend1 & Ht1).
  destruct (IH st' h' Hstep HD' Hol' Hsome') as (r & h'' & Hloop & Hm' & Hs'' & HD'' & Hr & Hframe').
  - lia.
  - destruct Ht' as [[-> _]| ->]; lia.
  - fold xs'. destruct Ht' as [[-> Hx]| ->]; [by intros _|done].
  - fold xs'. lia.
  - exists r, h''. split; [done|]. split; [by etrans|]. do 3 (split; [done|]).
    intros l Hl. rewrite Hframe' by done. by apply Hframe.
Qed.

(** A backward scan: the pending tone lies after the scan index. *)
Lemma attach_loop_backward (D : gset nat) fuel : ∀ st h,
  (searchstep < 0)%Z →
  let xs := deref h (ol st) in
  D ⊆ dom h → ol st ∉ D → is_Some (h !! ol st) →
  (v st < Z.of_nat (length xs))%Z →
  (t st < 0 ∨ v st < t st < Z.of_nat (length xs))%Z → pending xs (t st) →
  Z.to_nat (v st + 1) ≤ fuel →
  ∃ r h',
    attach_loop fuel tones vowels searchstep catdir st h = Ok (r, h') ∧
    merges xs (deref h' r) ∧ is_Some (h' !! r) ∧
    D ⊆ dom h' ∧ (r ∉ D) ∧ ∀ l, l ∈ D → h' !! l = h !! l.
Proof.
  induction fuel as [|fuel IH]; intros st h Hstep xs HD Hol Hsome Hvlen Htv Hpend Hfuel.
  { exists (ol st), h. cbn. fold xs.
    rewrite bool_decide_false by lia. cbn. by repeat split. }
  cbn [attach_loop]. fold xs.
  destruct (bool_decide (0 ≤ v st)%Z) eqn:Hguard.
  2:{ cbn [andb]. exists (ol st), h. by repeat split. }
  apply bool_decide_eq_true in Hguard. rewrite bool_decide_true by done. cbn [andb].
  destruct (attach_body_turn D st h HD Hol Hsome Hguard
              ltac:(unfold xs in *; lia) ltac:(unfold xs in *; lia))
    as (st' & h' & xv & t1 & Hbody & HD' & Hol' & Hframe & Hsome' & Hv' & Hxv & Hcontent & Ht').
  fold xs in Hxv, Hcontent. rewrite Hbody. bind_ok.
  set (xs' := deref h' (ol st')) in *.
  assert (Hstep' : merges xs xs' ∧ (v st < Z.of_nat (length xs'))%Z ∧ pending xs' t1 ∧
                   (t1 < 0 ∨ v st < t1 < Z.of_nat (length xs'))%Z).
  { destruct Hcontent as [(Hvow & Ht0 & -> & xt & Hxt & ->)|(_ & -> & ->)].
    - destruct (Hpend Ht0) as (xt' & Hxt' & Htone).
      rewrite Hxt in Hxt'. injection Hxt' as <-.
      destruct (split_two xs (Z.to_nat (v st)) (Z.to_nat (t st)) xv xt
                  ltac:(lia) Hxv Hxt) as (A & B & C & HABC & HA & HB).
      replace (Z.to_nat (t st)) with (length A + S (length B)) by lia.
      rewrite <- HA, HABC, set_then_remove_after.
      split; [apply rtc_once; by constructor|].
      split; [rewrite !length_app; cbn; rewrite !length_app; cbn; lia|].
      split; [intros ?; lia|lia].
    - by split. }
  destruct Hstep' as (Hm & Hlen & Hpend1 & Ht1).
  destruct (IH st' h' Hstep HD' Hol' Hsome') as (r & h'' & Hloop & Hm' & Hs'' & HD'' & Hr & Hframe').
  - fold xs'. lia.
  - fold xs'. destruct Ht' as [[-> _]| ->]; lia.
  - fold xs'. destruct Ht' as [[-> Hx]| ->]; [by intros _|done].
  - lia.
  - exists r, h''. split; [done|]. split; [by etrans|]. do 3 (split; [done|]).
    intros l Hl. rewrite Hframe' by done. by apply Hframe.
Qed.

End attach.

(** ** [attach_tones_to_vowels]: the call *)

Section attach_call.
Context (tones vowels : container) (searchstep catdir : Z).
Local Abbreviation merges := (merges tones vowels searchstep catdir).

(** A call returns a new list reached from the content of [il] by merges
    and changes no list that existed before the call. *)
Lemma attach_tones_merges fuel il (h : gmap nat (list str)) xs :
  searchstep ≠ 0%Z → h !! il = Some xs → length xs ≤ fuel →
  ∃ r h' out,
    attach_tones_to_vowels fuel il tones vowels searchstep catdir h = Ok (r, h') ∧
    h' !! r = Some out ∧ merges xs out ∧
    (r ∉ dom h) ∧ ∀ l, l ∈ dom h → h' !! l = h !! l.
Proof.
  intros Hstep Hil Hfuel. unfold attach_tones_to_vowels, alloc.
  rewrite (deref_lookup _ _ _ Hil), deref_insert_eq.
  set (ol0 := fresh (dom h)). set (h0 := <[ol0 := xs]> h).
  assert (Hfresh : ol0 ∉ dom h) by apply is_fresh.
  assert (Hdom : dom h ⊆ dom h0) by (unfold h0; rewrite dom_insert; set_solver).
  assert (Hsome : is_Some (h0 !! ol0)) by (unfold h0; by rewrite lookup_insert_eq).
  assert (Hx : deref h0 ol0 = xs) by apply deref_insert_eq.
  assert (Hres : ∃ r h',
    attach_loop fuel tones vowels searchstep catdir
      (Scan ol0 (if bool_decide (0 < searchstep)%Z then 0%Z
                 else (Z.of_nat (length xs) - 1)%Z) (-1)) h0 = Ok (r, h') ∧
    merges xs (deref h' r) ∧ is_Some (h' !! r) ∧
    dom h ⊆ dom h' ∧ (r ∉ dom h) ∧ ∀ l, l ∈ dom h → h' !! l = h0 !! l).
  { case_bool_decide as Hdir.
    - destruct (attach_loop_forward tones vowels searchstep catdir (dom h) fuel
                  (Scan ol0 0 (-1)) h0 Hdir Hdom Hfresh Hsome) as (r & h' & Hr);
        cbn [ol v t] in *; rewrite ?Hx in *; try lia; [intros ?; lia|].
      by exists r, h'.
    - destruct (attach_loop_backward tones vowels searchstep catdir (dom h) fuel
                  (Scan ol0 (Z.of_nat (length xs) - 1) (-1)) h0 ltac:(lia)
                  Hdom Hfresh Hsome) as (r & h' & Hr);
        cbn [ol v t] in *; rewrite ?Hx in *; try lia; [intros ?; lia|].
      by exists r, h'. }
  destruct Hres as (r & h' & Hloop & Hm & [out Hout] & _ & Hr & Hframe).
  exists r, h', out. rewrite (deref_lookup _ _ _ Hout) in Hm.
  do 4 (split; [done|]). intros l Hl. rewrite Hframe by done.
  unfold h0. rewrite lookup_insert_ne; [done|]. intros ->. done.
Qed.

End attach_call.

(** ** Merges keep every symbol *)

Section merges.
Context (tones vowels : container) (searchstep catdir : Z).
Local Abbreviation merges := (merges tones vowels searchstep catdir).
Local Abbreviation merge_step := (merge_step tones vowels searchstep catdir).








(** A forward scan leaves alone an element that is no vowel and has no
    vowel after it, and everything after that element. *)
Lemma merges_forward_stay pre x post out :
  (0 < searchstep)%Z → is_vowel vowels x = false →
  Forall (λ y, is_vowel vowels y = false) post →
  merges (pre ++ x :: post) out →
  ∃ pre', out = pre' ++ x :: post ∧ merges pre pre'.
Proof.
  intros Hdir Hx Hpost H. remember (pre ++ x :: post) as l eqn:El.
  revert pre El. induction H as [l|l l' out Hstep _ IH]; intros pre ->.
  { exists pre. by split. }
  inversion Hstep as [A xt B xv C _ Htone Hvow E1 E2|A xv B xt C ?]; [|lia]. subst l'.
  assert (Hsplit : ∃ C', C = C' ++ x :: post ∧ pre = A ++ xt :: B ++ xv :: C').
  { replace (A ++ xt :: B ++ xv :: C) with ((A ++ xt :: B) ++ xv :: C) in E1
      by (by rewrite <- app_assoc).
    apply app_eq_inv in E1 as [(k & Hk1 & Hk2)|(k & Hk1 & Hk2)].
    - assert (Hin : xv ∈ x :: post) by (rewrite Hk2; set_solver).
      apply elem_of_cons in Hin as [->|Hin]; [congruence|].
      rewrite Forall_forall in Hpost. specialize (Hpost _ Hin). congruence.
    - destruct k as [|y k]; cbn in Hk2; [injection Hk2 as -> _; congruence|].
      injection Hk2 as -> ->. exists k. split; [done|]. rewrite Hk1.
      by rewrite <- app_assoc. }
  destruct Hsplit as (C' & -> & ->).
  destruct (IH (A ++ B ++ attached catdir xv xt :: C')) as (pre' & -> & Hm).
  { by rewrite <- !app_assoc. }
  exists pre'. split; [done|]. eapply rtc_l; [|done]. by constructor.
Qed.

(** A backward scan leaves alone an element that is no vowel and has no
    vowel before it, and everything before that element. *)
Lemma merges_backward_stay pre x post out :
  (searchstep < 0)%Z → is_vowel vowels x = false →
  Forall (λ y, is_vowel vowels y = false) pre →
  merges (pre ++ x :: post) out →
  ∃ post', out = pre ++ x :: post' ∧ merges post post'.
Proof.
  intros Hdir Hx Hpre H. remember (pre ++ x :: post) as l eqn:El.
  revert post El. induction H as [l|l l' out Hstep _ IH]; intros post ->.
  { exists post. by split. }
  inversion Hstep as [A xt B xv C ?|A xv B xt C _ Htone Hvow E1 E2]; [lia|]. subst l'.
  assert (Hsplit : ∃ A', A = pre ++ x :: A' ∧ post = A' ++ xv :: B ++ xt :: C).
  { replace (pre ++ x :: post) with ((pre ++ [x]) ++ post) in E1
      by (by rewrite <- app_assoc).
    apply app_eq_inv in E1 as [(k & Hk1 & Hk2)|(k & Hk1 & Hk2)].
    - exists k. split; [by rewrite Hk1, <- app_assoc|done].
    - destruct k as [|y k]; cbn in Hk2.
      { exists []. rewrite app_nil_r in Hk1. by rewrite <- Hk1, <- Hk2. }
      injection Hk2 as <- _.
      assert (Hin : xv ∈ pre ++ [x]) by (rewrite Hk1; set_solver).
      apply elem_of_app in Hin as [Hin|Hin%list_elem_of_singleton]; [|congruence].
      rewrite Forall_forall in Hpre. specialize (Hpre _ Hin). congruence. }
  destruct Hsplit as (A' & -> & ->).
  destruct (IH (A' ++ attached catdir xv xt :: B ++ C)) as (post' & -> & Hm).
  { by rewrite <- !app_assoc. }
  exists post'. split; [done|]. eapply rtc_l; [|done]. by constructor.
Qed.

End merges.

(** ** [attach_tones_to_vowels]: the results *)

(** C7 (counterexample).  ["2"] is a tone with nothing after it, but it is
    also matched as a vowel: the pending tone ["1"] is merged into it and
    the result has no element ["2"]. *)
Lemma attach_tone_matched_as_vowel :
  member "2" (CStr "12") = true ∧
  attach_tones_value 2 ["1"; "2"] (CStr "12") (CSeq ["2"]) 1 1 = Ok ["21"] ∧
  "2" ∉ ["21"].
Proof.
  split; [by vm_compute|]. split; [by vm_compute|].
  intros [H|H]%elem_of_cons; [discriminate|]. by apply elem_of_nil in H.
Qed.

(** C7 (amended: the tone is not itself matched as a vowel).  In a forward
    ([searchstep > 0]) or backward ([searchstep < 0]) scan, a tone [x] that
    is not itself matched as a vowel and has no vowel after it in the scan
    direction is left as it is: the call returns, the returned list still
    has [x] as an element of its own, the elements that follow [x] in scan
    direction are unchanged behind it, and the elements on the other side
    of [x] have only been merged among themselves. *)
Theorem attach_tone_without_vowel_stays
    (tones vowels : container) (searchstep catdir : Z) (fuel il : nat)
    (h : gmap nat (list str)) (pre post : list str) (x : str) :
  searchstep ≠ 0%Z →
  h !! il = Some (pre ++ x :: post) →
  length (pre ++ x :: post) ≤ fuel →
  member x tones = true →
  is_vowel vowels x = false →
  Forall (λ y, is_vowel vowels y = false) (if bool_decide (0 < searchstep)%Z then post else pre) →
  ∃ r h' pre' post',
    attach_tones_to_vowels fuel il tones vowels searchstep catdir h = Ok (r, h') ∧
    h' !! r = Some (pre' ++ x :: post') ∧
    if bool_decide (0 < searchstep)%Z
    then post' = post ∧ merges tones vowels searchstep catdir pre pre'
    else pre' = pre ∧ merges tones vowels searchstep catdir post post'.
Proof.
  intros Hstep Hil Hfuel _ Hx Hrest.
  destruct (attach_tones_merges tones vowels searchstep catdir fuel il h _ Hstep Hil Hfuel)
    as (r & h' & out & Hcall & Hout & Hm & _).
  case_bool_decide as Hdir.
  - destruct (merges_forward_stay _ _ _ _ _ _ _ _ Hdir Hx Hrest Hm) as (pre' & -> & Hm').
    by exists r, h', pre', post.
  - assert (Hneg : (searchstep < 0)%Z) by lia.
    destruct (merges_backward_stay _ _ _ _ _ _ _ _ Hneg Hx Hrest Hm)
      as (post' & -> & Hm').
    by exists r, h', pre, post'.
Qed.

(** A forward scan of [["1"; "a"; "2"; "b"]]: the tone ["2"] has no vowel after it. *)
Lemma attach_tone_without_vowel_stays_witness :
  ∃ r h' pre' post',
    attach_tones_to_vowels 4 0 (CStr "012") (CSeq ["a"; "e"]) 1 1
      {[0 := ["1"; "a"; "2"; "b"]]} = Ok (r, h') ∧
    h' !! r = Some (pre' ++ "2" :: post') ∧
    if bool_decide (0 < 1)%Z
    then post' = ["b"] ∧ merges (CStr "012") (CSeq ["a"; "e"]) 1 1 ["1"; "a"] pre'
    else pre' = ["1"; "a"] ∧ merges (CStr "012") (CSeq ["a"; "e"]) 1 1 ["b"] post'.
Proof.
  apply (attach_tone_without_vowel_stays (CStr "012") (CSeq ["a"; "e"]) 1 1 4 0
           {[0 := ["1"; "a"; "2"; "b"]]} ["1"; "a"] ["b"] "2").
  - lia.
  - by vm_compute.
  - cbn. lia.
  - by vm_compute.
  - by vm_compute.
  - rewrite bool_decide_true by lia. repeat constructor.
Defined.




(** ** The reducer: the two checks never raise *)

Lemma for_in_ok {A S : Type} (xs : list A) (body : A → S → outcome S) (st : S) :
  (∀ x st, x ∈ xs → ∃ st', body x st = Ok st') → ∃ st', for_in xs body st = Ok st'.
Proof.
  revert st. induction xs as [|x xs IH]; intros st Hbody; [by exists st|].
  cbn [for_in]. destruct (Hbody x st) as [st' ->]; [by left|]. bind_ok.
  apply IH. intros y st'' Hy. apply Hbody. by right.
Qed.

Lemma dict_get_key (m : odict) k : k ∈ m.*1 → ∃ v, dict_get m k = Ok v.
Proof.
  induction m as [|[k' v'] m IH]; cbn; [by intros ?%elem_of_nil|].
  intros Hk. case_decide; [by exists v'|].
  apply elem_of_cons in Hk as [->|Hk]; [done|by apply IH].
Qed.

Lemma removelast_subset {A : Type} (l : list A) x : x ∈ removelast l → x ∈ l.
Proof.
  induction l as [|y [|z l] IH]; cbn; [done|by intros ?%elem_of_nil|].
  intros [->|Hx]%elem_of_cons; [by left|right; by apply IH].
Qed.

Lemma find_cascading_keys_ok (m : odict) :
  ∃ pairs, _find_cascading_keys_in_symbol_mapping m = Ok pairs.
Proof.
  unfold _find_cascading_keys_in_symbol_mapping. apply for_in_ok.
  intros [i k1] st Hin. apply list_elem_of_lookup in Hin as [j Hj].
  apply list_lookup_imap_Some in Hj as (k & Hk & [= -> ->]).
  apply list_elem_of_lookup_2, removelast_subset in Hk.
  unfold cascade_outer. destruct (dict_get_key m k Hk) as [cv ->]. bind_ok.
  case_decide; [by eexists|]. apply for_in_ok. intros k2 st' _. by eexists.
Qed.

(** The checks only add warnings: the outcome is that of the substitution. *)
Lemma post_process_result input_string original (m : odict) :
  result (_post_process_reduction input_string original m)
  = re_sub (alternation m.*1) (dict_get m) input_string.
Proof.
  unfold _post_process_reduction. destruct (find_cascading_keys_ok m) as [pairs ->].
  unfold mbind, eff_bind, lift, warn, mret, eff_ret. cbn [result warnings].
  destruct (0 <? length pairs); cbn [result warnings];
    destruct (0 <? size _); done.
Qed.

(** ** The reducer: the substitution is the single pass *)

Lemma prefix_empty rest : is_prefix "" rest = true.
Proof. by destruct rest. Qed.

Lemma prefix_slice k rest :
  is_prefix k rest = true →
  k +:+ slice rest (len k) (len rest) = rest.
Proof.
  revert rest. induction k as [|a k IH]; intros rest Hp.
  - apply slice_all.
  - destruct rest as [|b rest]; [done|]. cbn [is_prefix] in Hp.
    apply andb_true_iff in Hp as [->%bool_decide_eq_true Hp].
    change (String b k +:+ ?x) with (String b (k +:+ x)). f_equal.
    rewrite <- (IH rest Hp) at 3. done.
Qed.

Lemma prefix_length k rest :
  is_prefix k rest = true → len k ≤ len rest.
Proof.
  intros Hp. assert (H := f_equal len (prefix_slice k rest Hp)).
  rewrite str_app_length in H. lia.
Qed.

Section single_pass.
Context (m : odict).

Lemma re_match_first adv rest :
  match re_match m.*1 adv rest with
  | Some k => ∃ v, first_match m adv rest k v ∧ dict_get m k = Ok v
  | None => no_match m adv rest
  end.
Proof.
  induction m as [|[k0 v0] m' IH]; [by apply Forall_nil|].
  cbn [fmap list_fmap fst re_match].
  destruct (is_prefix k0 rest && negb (adv && (len k0 =? 0))) eqn:Hc.
  - apply andb_true_iff in Hc as [Hp Hadv]. exists v0.
    assert (Hm : matches_at adv rest k0).
    { split; [done|]. intros -> ->. done. }
    split; [exists [], m'; split; [done|]; split; [done|constructor]|].
    cbn. by rewrite decide_True.
  - assert (Hm : ¬ matches_at adv rest k0).
    { intros [Hp Hne]. rewrite Hp in Hc. destruct adv; [|done].
      destruct k0; [by apply Hne|done]. }
    change (list_fmap _ _ fst m') with (m'.*1).
    destruct (re_match m'.*1 adv rest) as [k|].
    + destruct IH as (v & (m1 & m2 & -> & Hk & Hm1) & Hget). exists v. split.
      * exists ((k0, v0) :: m1), m2. split; [done|]. split; [done|]. by constructor.
      * cbn. rewrite decide_False; [done|]. by intros ->.
    + by constructor.
Qed.

Lemma re_search_pass adv rest :
  match re_search m.*1 adv rest with
  | None =>
      ∃ ps, single_pass m adv rest ps ∧
            join (target <$> ps) = rest ∧ join (source <$> ps) = rest
  | Some (skipped, k, after) =>
      ∃ v, dict_get m k = Ok v ∧
           todo (len k =? 0) after < todo adv rest ∧
           ∀ ps, single_pass m (len k =? 0) after ps →
                 join (source <$> ps) = after →
                 ∃ ps', single_pass m adv rest ps' ∧
                        join (target <$> ps') = skipped +:+ v +:+ join (target <$> ps) ∧
                        join (source <$> ps') = rest
  end.
Proof.
  revert adv. induction rest as [|c rest IH]; intros adv; cbn [re_search];
    pose proof (re_match_first adv) as Hfirst.
  - specialize (Hfirst ""). destruct (re_match m.*1 adv "") as [k|].
    + destruct Hfirst as (v & Hfm & Hget). exists v. split; [done|].
      assert (Hk : matches_at adv "" k) by (by destruct Hfm as (? & ? & _ & ? & _)).
      destruct Hk as [Hp Hadv]. destruct k; [|done]. cbn. split.
      { unfold todo. destruct adv; [by destruct Hadv|cbn; lia]. }
      intros ps Hps Hsrc. exists (Replaced "" v :: ps). split; [by econstructor|].
      by rewrite !fmap_cons, !join_cons, Hsrc.
    + exists []. split; [by constructor|done].
  - specialize (Hfirst (String c rest)).
    destruct (re_match m.*1 adv (String c rest)) as [k|].
    + destruct Hfirst as (v & Hfm & Hget). exists v. split; [done|].
      assert (Hk : matches_at adv (String c rest) k) by (by destruct Hfm as (? & ? & _ & ? & _)).
      destruct Hk as [Hp Hadv]. split.
      { unfold todo. assert (Hle := prefix_length _ _ Hp).
        destruct (len k =? 0) eqn:E.
        - apply Nat.eqb_eq in E. destruct k; [|done].
          destruct adv; [by destruct Hadv|]. rewrite E, slice_all. lia.
        - apply Nat.eqb_neq in E. rewrite slice_length by lia.
          destruct adv; lia. }
      intros ps Hps Hsrc. exists (Replaced k v :: ps). split; [by econstructor|].
      rewrite !fmap_cons, !join_cons, Hsrc. split; [done|]. by apply prefix_slice.
    + specialize (IH false). destruct (re_search m.*1 false rest) as [[[skipped k] after]|].
      * destruct IH as (v & Hget & Htodo & Hcont). exists v. split; [done|]. split.
        { unfold todo in *. cbn [len]. destruct adv; lia. }
        intros ps Hps Hsrc. destruct (Hcont ps Hps Hsrc) as (ps' & Hps' & Ht & Hs).
        exists (Kept c :: ps'). split; [by constructor|].
        by rewrite !fmap_cons, !join_cons, Ht, Hs.
      * destruct IH as (ps & Hps & Ht & Hs). exists (Kept c :: ps).
        split; [by constructor|]. by rewrite !fmap_cons, !join_cons, Ht, Hs.
Qed.

Lemma re_sub_loop_pass fuel : ∀ adv rest,
  todo adv rest ≤ fuel →
  ∃ ps, re_sub_loop fuel m.*1 (dict_get m) adv rest = Ok (join (target <$> ps)) ∧
        single_pass m adv rest ps ∧ join (source <$> ps) = rest.
Proof.
  induction fuel as [|fuel IH]; intros adv rest Hfuel;
    pose proof (re_search_pass adv rest) as Hs; cbn [re_sub_loop];
    destruct (re_search m.*1 adv rest) as [[[skipped k] after]|].
  all: try (destruct Hs as (ps & Hps & Ht & Hsrc); exists ps; by rewrite Ht).
  all: destruct Hs as (v & Hget & Htodo & Hcont); try lia.
  rewrite Hget. bind_ok.
  destruct (IH (len k =? 0) after ltac:(lia)) as (ps & Hloop & Hps & Hsrc).
  rewrite Hloop. bind_ok. destruct (Hcont ps Hps Hsrc) as (ps' & Hps' & Ht & Hs').
  exists ps'. by rewrite Ht.
Qed.

(** [2 * len + 2] turns are enough for [re.sub]. *)
Lemma re_sub_loop_fuel text :
  m ≠ [] →
  ∃ ps, re_sub (alternation m.*1) (dict_get m) text = Ok (join (target <$> ps)) ∧
        single_pass m false text ps ∧ join (source <$> ps) = text.
Proof.
  intros Hm. unfold re_sub.
  assert (alternation m.*1 = m.*1) as -> by (by destruct m).
  apply re_sub_loop_pass. unfold todo. lia.
Qed.

End single_pass.

(** ** The reducer: the results *)

(** C4.  For a non-empty reduction mapping the substitution is one pass
    over the input, left to right: the input is cut into consecutive pieces
    ([join (source <$> ps)] is the input), each piece is either an
    occurrence of a key, replaced by the value of that key, or one character
    kept as it is, and the output is the concatenation of the replacements
    and kept characters, which is not scanned again.  At each position the
    key replaced is the one declared first in the mapping among those that
    match there ([first_match]).  For [{"a": "b", "b": "c"}] and the input
    ["a"] the result is ["b"]; for the input ["abc"], declaring ["a"] before
    ["ab"] gives ["xyc"] and declaring ["ab"] first gives ["zc"]. *)
Theorem post_process_single_pass (input_string : str)
    (original : gmap str str) (m : odict) :
  (m ≠ [] →
   ∃ ps, result (_post_process_reduction input_string original m)
           = Ok (join (target <$> ps)) ∧
         join (source <$> ps) = input_string ∧
         single_pass m false input_string ps) ∧
  result (_post_process_reduction "a" ∅ [("a", "b"); ("b", "c")]) = Ok "b" ∧
  result (_post_process_reduction "abc" ∅ [("a", "x"); ("b", "y"); ("ab", "z")]) = Ok "xyc" ∧
  result (_post_process_reduction "abc" ∅ [("ab", "z"); ("a", "x"); ("b", "y")]) = Ok "zc".
Proof.
  split; [|split; [|split]; by vm_compute].
  intros Hm. destruct (re_sub_loop_fuel m input_string Hm) as (ps & Hsub & Hps & Hsrc).
  exists ps. by rewrite post_process_result.
Qed.

(** The mapping [{"ab": "b", "b": "c"}] and the input ["abab"]. *)
Lemma post_process_single_pass_witness :
  ∃ ps, result (_post_process_reduction "abab" ∅ [("ab", "b"); ("b", "c")])
          = Ok (join (target <$> ps)) ∧
        join (source <$> ps) = "abab" ∧
        single_pass [("ab", "b"); ("b", "c")] false "abab" ps.
Proof.
  apply (post_process_single_pass "abab" ∅ [("ab", "b"); ("b", "c")]).
  discriminate.
Defined.

(** C9 (the code departs from the claim).  With the empty reduction
    mapping the reducer raises [KeyError] for every input string and every
    original table: the pattern joined from no key is the empty pattern, it
    matches the empty text at position 0, and the replacement callback
    looks the matched text [""] up in the empty mapping.  No warning is
    issued before. *)
Theorem post_process_empty_mapping_raises (input_string : str)
    (original : gmap str str) :
  _post_process_reduction input_string original [] = Eff [] (Raise (KeyError "")).
Proof.
  unfold _post_process_reduction.
  assert (_get_extra_reduction_keys original [] = ∅) as ->.
  { unfold _get_extra_reduction_keys. apply empty_difference_L. }
  assert (re_sub (alternation ([] : odict).*1) (dict_get []) input_string
          = Raise (KeyError "")) as ->.
  { unfold re_sub. replace (2 * len input_string + 2)
      with (S (2 * len input_string + 1)) by lia.
    cbn [fmap list_fmap alternation re_sub_loop].
    assert (re_search [""] false input_string
            = Some ("", "", slice input_string 0 (len input_string))) as ->.
    { destruct input_string; done. }
    done. }
  done.
Qed.

(** ** [convert] and the wrappers *)

Lemma of_value_none tup : (∀ p, value p ≠ tup) → of_value tup = None.
Proof.
  intros Hne. unfold of_value.
  destruct (list_find (λ p, value p = tup) members) as [[i p]|] eqn:Hf; [|done].
  apply list_find_Some in Hf as (_ & Hp & _). by destruct (Hne p).
Qed.

Lemma as_member_ipa_timit E language :
  as_member E IPA_KEY TIMIT_KEY language
  = Raise (ValueError ("Phonecode pairing ('ipa', 'timit') is not valid. Must convert to/from 'ipa' in supported languages or leave language unspecified.")).
Proof.
  unfold as_member. rewrite !of_value_none; [done|..].
  - intros p. by destruct p.
  - intros p. destruct p; cbn; try done; intros [= ?]; done.
Qed.

(** C5.  When [c0] or [c1] is not one of the known codes, [convert] raises
    [ValueError] with the message of [_verify_code] for the first invalid
    code, which starts with that code.  This holds for every input string,
    language, reduction mapping and environment: no table is consulted, no
    warning is issued and no string is returned. *)
Theorem convert_invalid_code (E : environment) (fuel : nat) (s0 c0 c1 : str)
    (language : option str) (post_conversion_mapping : option odict) :
  c0 ∉ CODES ∨ c1 ∉ CODES →
  ∃ bad rest,
    convert E fuel s0 c0 c1 language post_conversion_mapping
      = Eff [] (Raise (ValueError (bad +:+ rest))) ∧
    bad = (if decide (c0 ∈ CODES) then c1 else c0) ∧
    (bad ∉ CODES) ∧
    rest = " is not a valid phonecode. Choose from: " +:+ join_with " " (CODES_order E).
Proof.
  intros Hbad. exists (if decide (c0 ∈ CODES) then c1 else c0). eexists.
  split; [|split; [done|split; [|done]]].
  - unfold convert, _verify_code.
    destruct (decide (c0 ∈ CODES)) as [H0|H0]; [|done].
    destruct (decide (c1 ∈ CODES)) as [H1|H1]; [by destruct Hbad|done].
  - destruct (decide (c0 ∈ CODES)); [by destruct Hbad|done].
Qed.

(** The codes ["arpabet"] and ["klingon"], with empty tables. *)
Lemma convert_invalid_code_witness :
  ∃ bad rest,
    convert (Build_environment ∅ ∅ ∅ ∅ ∅ ∅ (λ _, ∅) (λ _, ∅) ∅ ∅ ∅ ∅ ∅
               (CSeq []) (CSeq []) (CSeq []) (λ _, CSeq []) (CSeq []) id id (λ _, true) [])
            0 "AE1 D" "arpabet" "klingon" None None
      = Eff [] (Raise (ValueError (bad +:+ rest))) ∧
    bad = (if decide ("arpabet" ∈ CODES) then "klingon" else "arpabet") ∧
    (bad ∉ CODES) ∧
    rest = " is not a valid phonecode. Choose from: " +:+ join_with " " [].
Proof.
  apply (convert_invalid_code
           (Build_environment ∅ ∅ ∅ ∅ ∅ ∅ (λ _, ∅) (λ _, ∅) ∅ ∅ ∅ ∅ ∅
              (CSeq []) (CSeq []) (CSeq []) (λ _, CSeq []) (CSeq []) id id (λ _, true) [])
           0 "AE1 D" "arpabet" "klingon" None None).
  right. by vm_compute.
Defined.

(** C6.  [ipa2timit] raises [ValueError] with the closure-symbol message
    for every input string, language and reduction mapping.  It does not go
    through [convert]: the same request made through [convert] fails with
    the other message, that of an unsupported pairing. *)
Theorem ipa2timit_always_fails (x : str) (language : option str)
    (post_conversion_mapping : option odict) :
  ipa2timit x language post_conversion_mapping
    = Eff [] (Raise (ValueError
        "Converting to 'timit' is unsupported, because TIMIT closure symbols for stops cannot be determined from text.")) ∧
  (∀ E fuel,
     convert E fuel x IPA_KEY TIMIT_KEY language post_conversion_mapping
       = Eff [] (Raise (ValueError
           "Phonecode pairing ('ipa', 'timit') is not valid. Must convert to/from 'ipa' in supported languages or leave language unspecified."))) ∧
  (∀ E fuel,
     ipa2timit x language post_conversion_mapping
       ≠ convert E fuel x IPA_KEY TIMIT_KEY language post_conversion_mapping).
Proof.
  assert (Hconv : ∀ E fuel,
     convert E fuel x IPA_KEY TIMIT_KEY language post_conversion_mapping
       = Eff [] (Raise (ValueError
           "Phonecode pairing ('ipa', 'timit') is not valid. Must convert to/from 'ipa' in supported languages or leave language unspecified."))).
  { intros E fuel. unfold convert, _verify_code.
    rewrite !decide_True by (by vm_compute).
    unfold mbind, eff_bind, lift. cbn [result warnings].
    by rewrite as_member_ipa_timit. }
  split; [done|]. split; [done|]. intros E fuel. rewrite Hconv. discriminate.
Qed.

(** * Further properties *)

(** ** The registry *)

Lemma members_complete (p : Phonecodes) : p ∈ members.
Proof. destruct p; unfold members; set_solver. Qed.

Lemma of_value_some tup p : of_value tup = Some p → value p = tup.
Proof.
  unfold of_value. destruct (list_find _ members) as [[i q]|] eqn:Hf; [|done].
  intros [= <-]. by apply list_find_Some in Hf as (_ & Hq & _).
Qed.

Lemma of_value_none_inv tup : of_value tup = None → ∀ p, value p ≠ tup.
Proof.
  unfold of_value. destruct (list_find _ members) as [[i q]|] eqn:Hf; [done|].
  intros _ p Hp. apply list_find_None in Hf. rewrite Forall_forall in Hf.
  by apply (Hf p (members_complete p)).
Qed.

(** No two members share a value: [Phonecodes(m.value)] is [m]. *)
Lemma of_value_value (p : Phonecodes) : of_value (value p) = Some p.
Proof. destruct p; by vm_compute. Qed.

(** Every member converts to IPA or from IPA, never both. *)
Lemma member_has_one_ipa_side (p : Phonecodes) :
  (in_code p = IPA_KEY ∧ out_code p ≠ IPA_KEY) ∨
  (in_code p ≠ IPA_KEY ∧ out_code p = IPA_KEY).
Proof. destruct p; vm_compute; (left; split; [done|discriminate]) || (right; split; [discriminate|done]). Qed.

Lemma member_codes_known (p : Phonecodes) : in_code p ∈ CODES ∧ out_code p ∈ CODES.
Proof. destruct p; split; by vm_compute. Qed.

(** The member returned has the codes asked for. *)
Lemma as_member_codes (E : environment) (c0 c1 : str) (l : option str)
    (p : Phonecodes) :
  as_member E c0 c1 l = Ok p → in_code p = c0 ∧ out_code p = c1.
Proof.
  unfold as_member, in_code, out_code.
  destruct (of_value (Triple c0 c1 l)) as [q|] eqn:H3.
  - intros [= ->]. apply of_value_some in H3. by rewrite H3.
  - destruct (of_value (Pair c0 c1)) as [q|] eqn:H2; [|done].
    intros [= ->]. apply of_value_some in H2. by rewrite H2.
Qed.

(** X1 (resolution).  When [as_member] returns a member, the member has
    the requested input and output code, and either its language is the
    requested one, or it is a member without language and no member has the
    requested triple as its value: an entry for the language is preferred to
    the entry without language. *)
Theorem as_member_resolves (E : environment) (c0 c1 : str) (l : option str)
    (p : Phonecodes) :
  as_member E c0 c1 l = Ok p →
  in_code p = c0 ∧ out_code p = c1 ∧
  (language_of p = l ∨
   (language_of p = None ∧ value p = Pair c0 c1 ∧ ∀ q, value q ≠ Triple c0 c1 l)).
Proof.
  unfold as_member, in_code, out_code, language_of.
  destruct (of_value (Triple c0 c1 l)) as [q|] eqn:H3.
  - intros [= ->]. apply of_value_some in H3. rewrite H3. auto.
  - destruct (of_value (Pair c0 c1)) as [q|] eqn:H2; [|done].
    intros [= ->]. apply of_value_some in H2. rewrite H2.
    do 2 (split; [done|]). right. do 2 (split; [done|]).
    by apply of_value_none_inv.
Qed.

(** [as_member "disc" "ipa" (Some "nld")] is the Dutch member. *)
Lemma as_member_resolves_witness :
  in_code DISC2IPA_NLD = "disc" ∧ out_code DISC2IPA_NLD = "ipa" ∧
  (language_of DISC2IPA_NLD = Some "nld" ∨
   (language_of DISC2IPA_NLD = None ∧ value DISC2IPA_NLD = Pair "disc" "ipa" ∧
    ∀ q, value q ≠ Triple "disc" "ipa" (Some "nld"))).
Proof.
  apply (as_member_resolves example_environment "disc" "ipa" (Some "nld") DISC2IPA_NLD).
  by vm_compute.
Defined.

(** X2 (round trip).  Asking for a member's own codes and language gives
    that member back, for every member of the enumeration. *)
Theorem as_member_of_member (E : environment) (p : Phonecodes) :
  as_member E (in_code p) (out_code p) (language_of p) = Ok p.
Proof. destruct p; by vm_compute. Qed.

(** X3 (no request without IPA).  [as_member] returns a member only when
    exactly one of the two codes is ["ipa"]; in particular a request between
    two non-IPA codes, or from IPA to IPA, raises [ValueError]. *)
Theorem as_member_needs_ipa (E : environment) (c0 c1 : str) (l : option str) :
  (∀ p, as_member E c0 c1 l = Ok p →
        (c0 = IPA_KEY ∧ c1 ≠ IPA_KEY) ∨ (c0 ≠ IPA_KEY ∧ c1 = IPA_KEY)) ∧
  (¬ ((c0 = IPA_KEY ∧ c1 ≠ IPA_KEY) ∨ (c0 ≠ IPA_KEY ∧ c1 = IPA_KEY)) →
   ∃ msg, as_member E c0 c1 l = Raise (ValueError msg)).
Proof.
  assert (H : ∀ p, as_member E c0 c1 l = Ok p →
        (c0 = IPA_KEY ∧ c1 ≠ IPA_KEY) ∨ (c0 ≠ IPA_KEY ∧ c1 = IPA_KEY)).
  { intros p Hp. apply as_member_codes in Hp as [<- <-].
    apply member_has_one_ipa_side. }
  split; [done|]. intros Hno.
  destruct (as_member E c0 c1 l) as [p| |] eqn:Hm.
  - destruct Hno. by apply (H p).
  - revert Hm. unfold as_member. repeat case_match; try done. intros [= <-]. eauto.
  - revert Hm. unfold as_member. by repeat case_match.
Qed.

Lemma as_member_needs_ipa_witness :
  ∃ msg, as_member example_environment "arpabet" "buckeye" None
         = Raise (ValueError msg).
Proof.
  apply (as_member_needs_ipa example_environment "arpabet" "buckeye" None).
  intros [[H _]|[_ H]]; discriminate.
Defined.

(** ** [convert], the wrappers and [convertlist] *)

Lemma eff_bind_result {A B : Type} (m : eff A) (f : A → eff B) :
  result (m ≫= f) =
  match result m with
  | Ok a => result (f a)
  | Raise e => Raise e
  | OutOfFuel => OutOfFuel
  end.
Proof. unfold mbind, eff_bind. by destruct (result m). Qed.

Lemma eff_bind_ok {A B : Type} (m : eff A) (f : A → eff B) b :
  result (m ≫= f) = Ok b ↔ ∃ a, result m = Ok a ∧ result (f a) = Ok b.
Proof.
  rewrite eff_bind_result. destruct (result m) as [a| |]; split.
  - intros H. by exists a.
  - by intros (a' & [= <-] & H).
  - done.
  - by intros (? & ? & _).
  - done.
  - by intros (? & ? & _).
Qed.

(** [convert] looks at [language] only to pick the member. *)
Lemma convert_as_member E fuel s0 c0 c1 l l' post :
  as_member E c0 c1 l = as_member E c0 c1 l' →
  convert E fuel s0 c0 c1 l post = convert E fuel s0 c0 c1 l' post.
Proof. intros H. unfold convert. by rewrite H. Qed.

Lemma as_member_language_free E c0 c1 l :
  c0 ≠ CALLHOME_KEY → c1 ≠ CALLHOME_KEY → c0 ≠ DISC_KEY →
  as_member E c0 c1 l = as_member E c0 c1 None.
Proof.
  intros H0 H1 H2. unfold as_member.
  rewrite (of_value_none (Triple c0 c1 l)), (of_value_none (Triple c0 c1 None)); [done|..].
  - intros p. by destruct p.
  - intros p. destruct p; cbn; try done; intros [= ? ? ?]; congruence.
Qed.

(** X4 (language ignored).  The X-SAMPA, ARPABET, Buckeye and TIMIT
    wrappers and [ipa2disc] give the same result, warnings included, whatever
    [language] is passed. *)
Theorem wrappers_ignore_language (E : environment) (fuel : nat) (x : str)
    (l : option str) (post : option odict) :
  ipa2xsampa E fuel x l post = ipa2xsampa E fuel x None post ∧
  xsampa2ipa E fuel x l post = xsampa2ipa E fuel x None post ∧
  ipa2disc E fuel x l post = ipa2disc E fuel x None post ∧
  arpabet2ipa E fuel x l post = arpabet2ipa E fuel x None post ∧
  ipa2arpabet E fuel x l post = ipa2arpabet E fuel x None post ∧
  timit2ipa E fuel x l post = timit2ipa E fuel x None post ∧
  buckeye2ipa E fuel x l post = buckeye2ipa E fuel x None post ∧
  ipa2buckeye E fuel x l post = ipa2buckeye E fuel x None post.
Proof.
  repeat split; apply convert_as_member, as_member_language_free; discriminate.
Qed.

(** X5 (DISC fallback).  [disc2ipa] with a language other than ["nld"] and
    ["eng"] is [disc2ipa] without language: the table without language is
    used. *)
Theorem disc2ipa_other_language (E : environment) (fuel : nat) (x l : str)
    (post : option odict) :
  l ≠ "nld" → l ≠ "eng" →
  disc2ipa E fuel x (Some l) post = disc2ipa E fuel x None post.
Proof.
  intros Hn He. apply convert_as_member. unfold as_member.
  rewrite (of_value_none (Triple DISC_KEY IPA_KEY (Some l))),
    (of_value_none (Triple DISC_KEY IPA_KEY None)); [done|..].
  - intros p. by destruct p.
  - intros p. destruct p; cbn; try done; intros [= ?]; congruence.
Qed.

Lemma disc2ipa_other_language_witness :
  disc2ipa example_environment 3 "abc" (Some "deu") None
  = disc2ipa example_environment 3 "abc" None None.
Proof.
  apply (disc2ipa_other_language example_environment 3 "abc" "deu" None);
    discriminate.
Defined.

(** X6 (CALLHOME needs a language).  [callhome2ipa] and [ipa2callhome]
    raise the unsupported-pairing [ValueError], without looking at the
    input, unless [language] is ["arz"], ["cmn"] or ["spa"]; this includes
    [language=None], the default of [ipa2callhome]. *)
Theorem callhome_needs_language (E : environment) (fuel : nat) (x : str)
    (l : option str) (post : option odict) :
  l ≠ Some "arz" → l ≠ Some "cmn" → l ≠ Some "spa" →
  callhome2ipa E fuel x l post
    = Eff [] (Raise (ValueError
        "Phonecode pairing ('callhome', 'ipa') is not valid. Must convert to/from 'ipa' in supported languages or leave language unspecified.")) ∧
  ipa2callhome E fuel x l post
    = Eff [] (Raise (ValueError
        "Phonecode pairing ('ipa', 'callhome') is not valid. Must convert to/from 'ipa' in supported languages or leave language unspecified.")).
Proof.
  intros Ha Hc Hs.
  assert (H1 : ∀ p, value p ≠ Triple CALLHOME_KEY IPA_KEY l)
    by (intros p; destruct p; cbn; try done; intros [= ?]; congruence).
  assert (H2 : ∀ p, value p ≠ Triple IPA_KEY CALLHOME_KEY l)
    by (intros p; destruct p; cbn; try done; intros [= ?]; congruence).
  assert (H3 : ∀ p, value p ≠ Pair CALLHOME_KEY IPA_KEY) by (intros p; by destruct p).
  assert (H4 : ∀ p, value p ≠ Pair IPA_KEY CALLHOME_KEY) by (intros p; by destruct p).
  split; unfold callhome2ipa, ipa2callhome, convert, _verify_code;
    rewrite !decide_True by (by vm_compute);
    unfold mbind, eff_bind, lift; cbn [result warnings];
    unfold as_member; rewrite !of_value_none by done; done.
Qed.

Lemma callhome_needs_language_witness :
  callhome2ipa example_environment 3 "abc" None None
    = Eff [] (Raise (ValueError
        "Phonecode pairing ('callhome', 'ipa') is not valid. Must convert to/from 'ipa' in supported languages or leave language unspecified.")) ∧
  ipa2callhome example_environment 3 "abc" None None
    = Eff [] (Raise (ValueError
        "Phonecode pairing ('ipa', 'callhome') is not valid. Must convert to/from 'ipa' in supported languages or leave language unspecified.")).
Proof.
  apply (callhome_needs_language example_environment 3 "abc" None None); discriminate.
Defined.

(** X7 (IPA on one side).  [convert] returns a string only when exactly one
    of the two codes is ["ipa"]. *)
Theorem convert_needs_ipa (E : environment) (fuel : nat) (s0 c0 c1 : str)
    (l : option str) (post : option odict) (out : str) :
  result (convert E fuel s0 c0 c1 l post) = Ok out →
  (c0 = IPA_KEY ∧ c1 ≠ IPA_KEY) ∨ (c0 ≠ IPA_KEY ∧ c1 = IPA_KEY).
Proof.
  unfold convert. intros H.
  apply eff_bind_ok in H as (_ & _ & H). apply eff_bind_ok in H as (_ & _ & H).
  apply eff_bind_ok in H as (p & Hp & _).
  apply as_member_codes in Hp as [<- <-]. apply member_has_one_ipa_side.
Qed.

Lemma convert_needs_ipa_witness :
  ("timit" = IPA_KEY ∧ "ipa" ≠ IPA_KEY) ∨ ("timit" ≠ IPA_KEY ∧ "ipa" = IPA_KEY).
Proof.
  apply (convert_needs_ipa example_environment 4 "AAAA" "timit" "ipa" None None "aa").
  by vm_compute.
Defined.

(** X8 ([convertlist]).  [convertlist] returns the list [outs] exactly when
    every string of [l0] converts, in order, to the string of [outs] at the
    same place: results keep the order and the number of the inputs, and one
    string that fails makes the call fail.  For the empty list nothing is
    converted, so [[]] comes back even for codes [convert] refuses. *)
Theorem convertlist_elementwise (E : environment) (fuel : nat) (l0 : list str)
    (c0 c1 : str) (l : option str) (post : option odict) (outs : list str) :
  result (convertlist E fuel l0 c0 c1 l post) = Ok outs ↔
  Forall2 (λ s0 out, result (convert E fuel s0 c0 c1 l post) = Ok out) l0 outs.
Proof.
  revert outs. induction l0 as [|s0 l0 IH]; intros outs; cbn [convertlist].
  - split; [intros [= <-]; constructor|by inversion 1].
  - rewrite eff_bind_ok. split.
    + intros (x & Hx & H). apply eff_bind_ok in H as (xs & Hxs & [= <-]).
      constructor; [done|by apply IH].
    + inversion 1 as [|? out ? outs' Hx Hxs]; subst. exists out. split; [done|].
      apply eff_bind_ok. exists outs'. split; [by apply IH|done].
Qed.

Lemma segments_count segs :
  Forall (λ g, consumed g ≠ "") segs →
  length segs ≤ len (join (consumed <$> segs)).
Proof.
  induction 1 as [|g segs Hg _ IH]; [done|].
  rewrite fmap_cons, join_cons, str_app_length. cbn [length].
  destruct (consumed g); [done|]. cbn [len]. lia.
Qed.

(** X9 (output no longer than input).  For a non-empty table,
    [translate_string] returns at most as many symbols as the input has
    characters, and as many flags as symbols. *)
Theorem translate_string_length (d : gmap str str) (s : str) (fuel : nat) :
  d ≠ ∅ → len s ≤ fuel →
  ∃ tl ttf, translate_string fuel s d = Ok (tl, ttf) ∧
            length tl = length ttf ∧ length tl ≤ len s.
Proof.
  intros Hd Hfuel.
  destruct (translate_string_path d s fuel Hd Hfuel)
    as (maxsym & segs & _ & _ & Hts & [_ Hj] & Hne & _).
  eexists _, _. split; [done|]. rewrite !length_fmap. split; [done|].
  rewrite <- Hj. by apply segments_count.
Qed.

Lemma translate_string_length_witness :
  ∃ tl ttf, translate_string 3 "abc" {["ab" := "X"]} = Ok (tl, ttf) ∧
            length tl = length ttf ∧ length tl ≤ len "abc".
Proof.
  apply (translate_string_length {["ab" := "X"]} "abc" 3).
  - intros H. apply (f_equal (λ m, m !! "ab")) in H. vm_compute in H. discriminate.
  - vm_compute. lia.
Defined.

Lemma attach_tones_value_merges tones vowels searchstep catdir fuel il :
  searchstep ≠ 0%Z → length il ≤ fuel →
  ∃ out, attach_tones_value fuel il tones vowels searchstep catdir = Ok out ∧
         merges tones vowels searchstep catdir il out.
Proof.
  intros Hstep Hfuel. unfold attach_tones_value.
  destruct (attach_tones_merges tones vowels searchstep catdir fuel 0 {[0 := il]} il
              Hstep (lookup_singleton_eq _ _) Hfuel)
    as (r & h' & out & -> & Hout & Hm & _).
  exists out. bind_ok. by rewrite (deref_lookup _ _ _ Hout).
Qed.




(** ** [translate_string], further *)

Lemma prefix_substring0 n s : is_prefix (substring 0 n s) s = true.
Proof.
  revert n. induction s as [|c s IH]; intros [|n]; cbn; try done.
  rewrite bool_decide_true by done. apply (IH n).
Qed.

(** A slice of [s] occurs in [s]. *)
Lemma contains_substring n m s : contains (substring n m s) s = true.
Proof.
  revert n. induction s as [|c s IH]; intros n.
  - by destruct n, m.
  - destruct n as [|n].
    + cbn [contains]. by rewrite prefix_substring0.
    + cbn [contains]. change (substring (S n) m (String c s))
        with (substring n m s). by rewrite IH, orb_true_r.
Qed.

(** X11 (unknown text passes through).  With a non-empty table none of
    whose non-empty keys occurs in [s] as a substring, [translate_string]
    gives every character of [s] back as a symbol of its own, flagged
    [False]. *)
Theorem translate_string_passthrough (d : gmap str str) (s : str) (fuel : nat) :
  d ≠ ∅ → len s ≤ fuel →
  (∀ k v, d !! k = Some v → k ≠ "" → contains k s = false) →
  translate_string fuel s d
  = Ok ((λ c, String c "") <$> chars s, (λ _, false) <$> chars s).
Proof.
  intros Hd Hfuel Hnone. apply translate_string_all_miss; [done..|].
  intros k v a b Hk Hne Hs. specialize (Hnone k v Hk Hne).
  unfold slice in Hs. rewrite <- Hs, contains_substring in Hnone. done.
Qed.

Lemma translate_string_passthrough_witness :
  translate_string 3 "cad" {["ab" := "X"]}
  = Ok ((λ c, String c "") <$> chars "cad", (λ _, false) <$> chars "cad").
Proof.
  apply (translate_string_passthrough {["ab" := "X"]} "cad" 3).
  - intros H. apply (f_equal (λ m, m !! "ab")) in H. vm_compute in H. discriminate.
  - vm_compute. lia.
  - intros k v [<- _]%lookup_singleton_Some _. by vm_compute.
Defined.

Lemma path_cost_cons g segs : path_cost (g :: segs) = flag_cost (is_hit g) + path_cost segs.
Proof. done. Qed.

(** X12 (a key translates to its value).  When the whole non-empty input is
    a key of the table, the result is the single symbol the table gives for
    it, flagged [True], whatever other keys the table has. *)
Theorem translate_string_whole_key (d : gmap str str) (s v : str) (fuel : nat) :
  s ≠ "" → d !! s = Some v → len s ≤ fuel →
  translate_string fuel s d = Ok ([v], [true]).
Proof.
  intros Hs Hv Hfuel.
  assert (Hd : d ≠ ∅) by (intros ->; by rewrite lookup_empty in Hv).
  destruct (translate_string_path d s fuel Hd Hfuel)
    as (maxsym & segs & Hmax & _ & -> & [Hin Hj] & Hne & Hpc).
  assert (Hle : path_cost segs ≤ 1).
  { rewrite Hpc.
    apply (lattice_lower_bound s d maxsym Hmax [Hit s v] (len s) (Nat.le_refl _)).
    split; [by repeat constructor|]. by rewrite slice_all. }
  destruct segs as [|g segs]; [done|].
  rewrite path_cost_cons in Hle.
  apply Forall_cons in Hne as [Hg Hne], Hin as [Hing Hin].
  destruct segs as [|g' segs].
  - destruct g as [k v'|c]; cbn in Hle; [|lia].
    cbn in Hj, Hing. subst k. rewrite Hv in Hing. by injection Hing as <-.
  - rewrite path_cost_cons in Hle. exfalso.
    destruct g, g'; cbn in Hle; lia.
Qed.

Lemma translate_string_whole_key_witness :
  translate_string 2 "ab" (<["a" := "P"]> (<["b" := "R"]> {["ab" := "Q"]}))
  = Ok (["Q"], [true]).
Proof.
  apply (translate_string_whole_key (<["a" := "P"]> (<["b" := "R"]> {["ab" := "Q"]})) "ab" "Q" 2).
  - discriminate.
  - by vm_compute.
  - vm_compute. lia.
Defined.

Lemma flags_cost_split ttf : flags_cost ttf = hits ttf + 10 * misses ttf.
Proof.
  unfold flags_cost, hits, misses. induction ttf as [|[] ttf IH]; [done|..].
  - rewrite filter_cons_True, filter_cons_False by done. cbn in *. lia.
  - rewrite filter_cons_False, filter_cons_True by done. cbn in *. lia.
Qed.

(** X13 (misses against hits).  The result minimises [hits + 10 * misses],
    not the number of misses first: it has more misses than another
    decomposition only if that one needs at least ten more hits for each
    miss it saves, and at equal misses it has no more symbols.  The order
    of the docstring (fewest untranslatable symbols first) is therefore not
    kept for long inputs: the input ["ab"] twelve times over is twelve hits
    of the key ["ab"], and the result is the untranslatable ["a"] followed
    by one hit of the 23-character key. *)
Theorem translate_string_miss_tradeoff (d : gmap str str) (s : str) (fuel : nat) :
  (d ≠ ∅ → len s ≤ fuel →
   ∃ tl ttf, translate_string fuel s d = Ok (tl, ttf) ∧
     ∀ segs', decomposes d segs' s →
       hits ttf + 10 * misses ttf
         ≤ hits (is_hit <$> segs') + 10 * misses (is_hit <$> segs') ∧
       (misses ttf = misses (is_hit <$> segs') → length ttf ≤ length segs')) ∧
  translate_string 24 "abababababababababababab"
    (<["ab" := "X"]> {["bababababababababababab" := "Y"]})
  = Ok (["a"; "Y"], [false; true]).
Proof.
  split; [|by vm_compute]. intros Hd Hfuel.
  destruct (translate_string_path d s fuel Hd Hfuel)
    as (maxsym & segs & Hmax & _ & -> & _ & _ & Hpc).
  eexists _, _. split; [done|]. intros segs' Hdec.
  assert (Hle : path_cost segs ≤ path_cost segs').
  { rewrite Hpc. apply lattice_lower_bound; [done..|]. by rewrite slice_all. }
  unfold path_cost in Hle. rewrite !flags_cost_split in Hle. split; [done|].
  intros Heq. rewrite Heq in Hle.
  assert (Hlen : ∀ ttf, length ttf = hits ttf + misses ttf).
  { unfold hits, misses. induction ttf as [|[] ttf IH]; [done|..].
    - rewrite filter_cons_True, filter_cons_False by done. cbn. lia.
    - rewrite filter_cons_False, filter_cons_True by done. cbn. lia. }
  rewrite <- (length_fmap is_hit segs'), !Hlen. lia.
Qed.

Lemma translate_string_miss_tradeoff_witness :
  ∃ tl ttf, translate_string 3 "abc" {["ab" := "X"]} = Ok (tl, ttf) ∧
    ∀ segs', decomposes {["ab" := "X"]} segs' "abc" →
      hits ttf + 10 * misses ttf
        ≤ hits (is_hit <$> segs') + 10 * misses (is_hit <$> segs') ∧
      (misses ttf = misses (is_hit <$> segs') → length ttf ≤ length segs').
Proof.
  apply (translate_string_miss_tradeoff {["ab" := "X"]} "abc" 3).
  - intros H. apply (f_equal (λ m, m !! "ab")) in H. vm_compute in H. discriminate.
  - vm_compute. lia.
Defined.

(** ** The reducer, further *)

Lemma contains_prefix k s : is_prefix k s = true → contains k s = true.
Proof. destruct s; cbn [contains]; by intros ->. Qed.

Lemma dict_get_notin (m : odict) k : k ∉ m.*1 → dict_get m k = Raise (KeyError k).
Proof.
  induction m as [|[k' v'] m IH]; [done|]. cbn. intros Hk.
  apply not_elem_of_cons in Hk as [Hne Hk]. rewrite decide_False by done. by apply IH.
Qed.

Lemma dict_get_first (m1 m2 : odict) k v :
  k ∉ m1.*1 → dict_get (m1 ++ (k, v) :: m2) k = Ok v.
Proof.
  induction m1 as [|[k' v'] m1 IH]; cbn.
  - intros _. by rewrite decide_True.
  - intros Hk. apply not_elem_of_cons in Hk as [Hne Hk].
    rewrite decide_False by done. by apply IH.
Qed.

Lemma first_match_entry m adv rest k v :
  first_match m adv rest k v →
  k ∈ m.*1 ∧ is_prefix k rest = true ∧ dict_get m k = Ok v.
Proof.
  intros (m1 & m2 & -> & Hk & Hm1). split; [|split; [apply Hk|]].
  - rewrite fmap_app, fmap_cons. apply elem_of_app. right. by left.
  - apply dict_get_first. intros (e & -> & He)%list_elem_of_fmap.
    by apply (proj1 (Forall_forall _ _) Hm1 e He).
Qed.

Lemma no_match_char m adv c rest :
  no_match m adv (String c rest) → String c "" ∉ m.*1.
Proof.
  intros Hno (e & He1 & He)%list_elem_of_fmap.
  apply (proj1 (Forall_forall _ _) Hno e He). rewrite <- He1. split.
  - cbn. by rewrite bool_decide_true.
  - done.
Qed.

Lemma single_pass_no_key m adv rest ps :
  single_pass m adv rest ps →
  Forall (λ k, contains k rest = false) m.*1 →
  join (target <$> ps) = rest.
Proof.
  induction 1 as [adv _|adv rest k v ps Hfm _ _|adv c rest ps _ _ IH]; intros Hnone.
  - done.
  - apply first_match_entry in Hfm as (Hk & Hp & _).
    apply (proj1 (Forall_forall _ _) Hnone) in Hk.
    by rewrite (contains_prefix _ _ Hp) in Hk.
  - rewrite fmap_cons, join_cons, IH; [done|].
    eapply Forall_impl; [apply Hnone|]. cbn [contains].
    by intros k [_ ?]%orb_false_iff.
Qed.

(** X14 (nothing to reduce).  When no key of a non-empty reduction mapping
    occurs in the input, the reducer returns the input unchanged. *)
Theorem post_process_no_occurrence (input_string : str)
    (original : gmap str str) (m : odict) :
  m ≠ [] → Forall (λ k, contains k input_string = false) m.*1 →
  result (_post_process_reduction input_string original m) = Ok input_string.
Proof.
  intros Hm Hnone. rewrite post_process_result.
  destruct (re_sub_loop_fuel m input_string Hm) as (ps & -> & Hps & _).
  f_equal. by eapply single_pass_no_key.
Qed.

Lemma post_process_no_occurrence_witness :
  result (_post_process_reduction "cad" ∅ [("ab", "x"); ("e", "y")]) = Ok "cad".
Proof.
  apply (post_process_no_occurrence "cad" ∅ [("ab", "x"); ("e", "y")]).
  - discriminate.
  - repeat constructor.
Defined.

Lemma single_pass_chars m adv rest ps :
  single_pass m adv rest ps →
  Forall (λ k, len k = 1) m.*1 →
  join (target <$> ps) = join (char_reduction m <$> chars rest).
Proof.
  induction 1 as [adv _|adv rest k v ps Hfm _ IH|adv c rest ps Hno _ IH]; intros Hone.
  - done.
  - apply first_match_entry in Hfm as (Hk & Hp & Hget).
    apply (proj1 (Forall_forall _ _) Hone) in Hk.
    pose proof (prefix_slice k rest Hp) as Hsl. revert IH Hsl.
    generalize (slice rest (len k) (len rest)) as rest'.
    intros rest' IH Hsl. destruct k as [|c [|]]; try done.
    change (String c "" +:+ rest') with (String c rest') in Hsl. subst rest.
    rename rest' into rest.
    rewrite fmap_cons, join_cons, (IH Hone).
    change (chars (String c rest)) with (c :: chars rest).
    rewrite fmap_cons, join_cons. unfold char_reduction at 2. by rewrite Hget.
  - rewrite fmap_cons, join_cons, (IH Hone).
    change (chars (String c rest)) with (c :: chars rest).
    rewrite fmap_cons, join_cons. unfold char_reduction at 2.
    by rewrite (dict_get_notin m _ (no_match_char _ _ _ _ Hno)).
Qed.

(** X15 (single-character keys).  When every key of the non-empty reduction
    mapping is one character long, the reducer works character by
    character: each character that is a key is replaced by its value, every
    other character is kept. *)
Theorem post_process_single_chars (input_string : str)
    (original : gmap str str) (m : odict) :
  m ≠ [] → Forall (λ k, len k = 1) m.*1 →
  result (_post_process_reduction input_string original m)
  = Ok (join (char_reduction m <$> chars input_string)).
Proof.
  intros Hm Hone. rewrite post_process_result.
  destruct (re_sub_loop_fuel m input_string Hm) as (ps & -> & Hps & _).
  f_equal. by eapply single_pass_chars.
Qed.

Lemma post_process_single_chars_witness :
  result (_post_process_reduction "ɑbæɑ" ∅ [("ɑ", "a"); ("æ", ""); ("b", "ββ")])
  = Ok (join (char_reduction [("ɑ", "a"); ("æ", ""); ("b", "ββ")] <$> chars "ɑbæɑ")).
Proof.
  apply (post_process_single_chars "ɑbæɑ" ∅ [("ɑ", "a"); ("æ", ""); ("b", "ββ")]).
  - discriminate.
  - repeat constructor.
Defined.

(** X16 (the original table only matters to the warning).  The string the
    reducer returns, or the error it raises, does not depend on the
    original translation table. *)
Theorem post_process_original_irrelevant (input_string : str)
    (original original' : gmap str str) (m : odict) :
  result (_post_process_reduction input_string original m)
  = result (_post_process_reduction input_string original' m).
Proof. by rewrite !post_process_result. Qed.

Lemma for_in_collect {A B : Type} (xs : list A)
    (body : A → list B → outcome (list B)) (f : A → list B) (st : list B) :
  (∀ x st, x ∈ xs → body x st = Ok (st ++ f x)) →
  for_in xs body st = Ok (st ++ mjoin (f <$> xs)).
Proof.
  revert st. induction xs as [|x xs IH]; intros st Hbody; cbn [for_in].
  - by rewrite app_nil_r.
  - rewrite Hbody by left. bind_ok. rewrite IH.
    + rewrite fmap_cons.
      change (mjoin (f x :: (f <$> xs))) with (f x ++ mjoin (f <$> xs)).
      by rewrite app_assoc.
    + intros y st' Hy. apply Hbody. by right.
Qed.

Lemma removelast_take {A : Type} (l : list A) : removelast l = take (length l - 1) l.
Proof.
  induction l as [|x [|y l] IH]; [done..|].
  change (removelast (x :: y :: l)) with (x :: removelast (y :: l)).
  rewrite IH. cbn. by rewrite Nat.sub_0_r.
Qed.

(** X17 (what the cascade check reports).  The check always returns, and it
    reports the pair [(k1, k2)] exactly when [k1] is declared before [k2],
    the value of [k1] is not empty and occurs in [k2] as a substring. *)
Theorem find_cascading_keys_pairs (m : odict) :
  ∃ pairs, _find_cascading_keys_in_symbol_mapping m = Ok pairs ∧
    ∀ k1 k2, (k1, k2) ∈ pairs ↔
      ∃ i j v, i < j ∧ m.*1 !! i = Some k1 ∧ m.*1 !! j = Some k2 ∧
               dict_get m k1 = Ok v ∧ v ≠ "" ∧ contains v k2 = true.
Proof.
  set (inner := λ (k1 v k2 : str), if contains v k2 then [(k1, k2)] else []).
  set (outer := λ ik : nat * str,
    match dict_get m ik.2 with
    | Ok v => if decide (v = "") then []
              else mjoin (inner ik.2 v <$> drop (ik.1 + 1) m.*1)
    | _ => []
    end).
  assert (Hrun : _find_cascading_keys_in_symbol_mapping m
                 = Ok ([] ++ mjoin (outer <$> imap pair (removelast m.*1)))).
  { unfold _find_cascading_keys_in_symbol_mapping. apply for_in_collect.
    intros [i k1] st Hin. apply list_elem_of_lookup in Hin as [j Hj].
    apply list_lookup_imap_Some in Hj as (k & Hk & [= -> ->]).
    apply list_elem_of_lookup_2, removelast_subset in Hk.
    unfold cascade_outer, outer. cbn [fst snd].
    destruct (dict_get_key m k Hk) as [cv ->]. bind_ok.
    case_decide; [by rewrite app_nil_r|]. apply for_in_collect.
    intros k2 st' _. unfold cascade_inner, inner.
    destruct (contains cv k2); [done|by rewrite app_nil_r]. }
  eexists. split; [apply Hrun|]. rewrite app_nil_l. intros k1 k2.
  rewrite list_elem_of_join. split.
  - intros (ps & Hin & (ik & -> & Hik)%list_elem_of_fmap).
    apply list_elem_of_lookup in Hik as [i' Hik].
    apply list_lookup_imap_Some in Hik as (k & Hk & ->).
    rewrite removelast_take in Hk. apply lookup_take_Some in Hk as [Hk Hi].
    unfold outer in Hin. cbn [fst snd] in Hin.
    destruct (dict_get m k) as [v| |] eqn:Hget; try by apply elem_of_nil in Hin.
    case_decide as Hv; [by apply elem_of_nil in Hin|].
    apply list_elem_of_join in Hin as (qs & Hin & (k' & -> & Hk')%list_elem_of_fmap).
    unfold inner in Hin. destruct (contains v k') eqn:Hc; [|by apply elem_of_nil in Hin].
    apply list_elem_of_singleton in Hin as [= -> ->].
    apply list_elem_of_lookup in Hk' as [j' Hj']. rewrite lookup_drop in Hj'.
    exists i', (i' + 1 + j'), v. repeat split; try done. lia.
  - intros (i & j & v & Hij & Hi & Hj & Hget & Hv & Hc).
    exists (outer (i, k1)). split.
    + unfold outer. cbn [fst snd]. rewrite Hget, decide_False by done.
      apply list_elem_of_join. exists (inner k1 v k2). split.
      * unfold inner. rewrite Hc. by left.
      * apply list_elem_of_fmap. exists k2. split; [done|].
        apply list_elem_of_lookup. exists (j - (i + 1)). rewrite lookup_drop.
        by replace (i + 1 + (j - (i + 1))) with j by lia.
    + apply list_elem_of_fmap. exists (i, k1). split; [done|].
      apply (elem_of_lookup_imap_2 pair _ k1 i). rewrite removelast_take.
      apply lookup_take_Some. split; [done|].
      apply lookup_lt_Some in Hj. lia.
Qed.

(** ** [attach_tones_to_vowels], further *)

Section attach_more.
Context (tones vowels : container) (searchstep catdir : Z).

Lemma merge_step_shorter xs ys :
  merge_step tones vowels searchstep catdir xs ys → length xs = S (length ys).
Proof. destruct 1; repeat (rewrite ?length_app; cbn [length]); lia. Qed.

Lemma merge_step_tone_vowel xs ys :
  merge_step tones vowels searchstep catdir xs ys →
  (∃ xt, xt ∈ xs ∧ member xt tones = true) ∧
  (∃ xv, xv ∈ xs ∧ is_vowel vowels xv = true).
Proof.
  destruct 1 as [A xt B xv C _ Ht Hv|A xv B xt C _ Ht Hv];
    (split; [exists xt|exists xv]; (split; [|done]));
    rewrite ?elem_of_app, ?elem_of_cons, ?elem_of_app, ?elem_of_cons; auto 6.
Qed.

Lemma merges_shorter xs out :
  merges tones vowels searchstep catdir xs out →
  length out ≤ length xs ∧ (length out = length xs → out = xs).
Proof.
  induction 1 as [xs|xs ys out Hstep _ [IH _]]; [done|].
  apply merge_step_shorter in Hstep. split; lia.
Qed.

Lemma merges_nothing xs out :
  merges tones vowels searchstep catdir xs out →
  Forall (λ x, member x tones = false) xs ∨ Forall (λ x, is_vowel vowels x = false) xs →
  out = xs.
Proof.
  destruct 1 as [|xs ys out Hstep _]; [done|].
  apply merge_step_tone_vowel in Hstep as [(xt & Hin & Ht) (xv & Hin' & Hv)].
  intros [Hno|Hno]; rewrite Forall_forall in Hno.
  - by rewrite (Hno xt Hin) in Ht.
  - by rewrite (Hno xv Hin') in Hv.
Qed.

(** A turn that attaches nothing: the list is not touched, the scan index
    moves by [searchstep] and the pending index is set when the element
    scanned is a tone. *)
Lemma attach_body_skip st (h : gmap nat (list str)) xv :
  (0 ≤ v st)%Z → deref h (ol st) !! Z.to_nat (v st) = Some xv →
  is_vowel vowels xv && bool_decide (0 ≤ t st)%Z = false →
  attach_body tones vowels searchstep catdir st h
  = Ok (Scan (ol st) (v st + searchstep) (if member xv tones then v st else t st), h).
Proof.
  intros Hv Hxv Hno. unfold attach_body.
  rewrite (getitem_z_lookup _ _ _ Hv Hxv). bind_ok. rewrite Hno. bind_ok.
  rewrite bool_decide_true by (apply lookup_lt_Some in Hxv; lia).
  rewrite (getitem_z_lookup _ _ _ Hv Hxv). by bind_ok.
Qed.

End attach_more.

(** X19 (nothing to attach).  In a forward or backward scan of a list that
    has no tone, or no vowel, the call returns a list equal to the input. *)
Theorem attach_tones_nothing_to_attach
    (tones vowels : container) (searchstep catdir : Z) (fuel : nat) (il : list str) :
  searchstep ≠ 0%Z → length il ≤ fuel →
  Forall (λ x, member x tones = false) il ∨ Forall (λ x, is_vowel vowels x = false) il →
  attach_tones_value fuel il tones vowels searchstep catdir = Ok il.
Proof.
  intros Hstep Hfuel Hno.
  destruct (attach_tones_value_merges tones vowels searchstep catdir fuel il Hstep Hfuel)
    as (out & -> & Hm).
  f_equal. by eapply merges_nothing.
Qed.

Lemma attach_tones_nothing_to_attach_witness :
  attach_tones_value 3 ["1"; "b"; "2"] (CStr "012") (CSeq ["a"; "e"]) (-1) 1
  = Ok ["1"; "b"; "2"].
Proof.
  apply (attach_tones_nothing_to_attach (CStr "012") (CSeq ["a"; "e"]) (-1) 1 3
           ["1"; "b"; "2"]).
  - lia.
  - cbn. lia.
  - right. repeat constructor.
Defined.

(** X20 (the result is never longer).  In a forward or backward scan the
    list returned has at most as many elements as the input, and as many
    only if it is equal to the input: every attachment removes one
    element. *)
Theorem attach_tones_never_longer
    (tones vowels : container) (searchstep catdir : Z) (fuel : nat) (il : list str) :
  searchstep ≠ 0%Z → length il ≤ fuel →
  ∃ out, attach_tones_value fuel il tones vowels searchstep catdir = Ok out ∧
         length out ≤ length il ∧ (length out = length il → out = il).
Proof.
  intros Hstep Hfuel.
  destruct (attach_tones_value_merges tones vowels searchstep catdir fuel il Hstep Hfuel)
    as (out & -> & Hm).
  exists out. split; [done|]. by eapply merges_shorter.
Qed.

Lemma attach_tones_never_longer_witness :
  ∃ out, attach_tones_value 4 ["1"; "a"; "2"; "b"] (CStr "012") (CSeq ["a"; "e"]) 1 (-1)
         = Ok out ∧
         length out ≤ length ["1"; "a"; "2"; "b"] ∧
         (length out = length ["1"; "a"; "2"; "b"] → out = ["1"; "a"; "2"; "b"]).
Proof.
  apply (attach_tones_never_longer (CStr "012") (CSeq ["a"; "e"]) 1 (-1) 4
           ["1"; "a"; "2"; "b"]).
  - lia.
  - cbn. lia.
Defined.

Lemma attach_loop_zero_step tones vowels catdir (h : gmap nat (list str)) xs x fuel :
  last xs = Some x →
  is_vowel vowels x = false ∨ member x tones = false →
  ∀ st, deref h (ol st) = xs → v st = (Z.of_nat (length xs) - 1)%Z →
        is_vowel vowels x && bool_decide (0 ≤ t st)%Z = false →
        attach_loop fuel tones vowels 0 catdir st h = OutOfFuel.
Proof.
  intros Hlast Hx. rewrite last_lookup in Hlast.
  assert (Hlen : 0 < length xs) by (apply lookup_lt_Some in Hlast; lia).
  induction fuel as [|fuel IH]; intros st Hol Hv Ht; cbn [attach_loop];
    rewrite Hol, !bool_decide_true by lia; cbn [andb]; [done|].
  assert (Hxv : deref h (ol st) !! Z.to_nat (v st) = Some x).
  { rewrite Hol, Hv. by replace (Z.to_nat (Z.of_nat (length xs) - 1))
      with (pred (length xs)) by lia. }
  rewrite (attach_body_skip tones vowels 0 catdir st h x ltac:(lia) Hxv Ht). bind_ok.
  apply IH; cbn [ol v t]; [done|lia|].
  destruct Hx as [Hx|Hx]; rewrite Hx; [done|exact Ht].
Qed.

(** X21 (a scan that does not move).  With [searchstep = 0] the scan starts
    at the last element and stays there: unless that element is both a
    vowel and a tone, the loop does not end, whatever number of turns it
    is given. *)
Theorem attach_tones_zero_step_never_ends
    (tones vowels : container) (catdir : Z) (fuel il : nat)
    (h : gmap nat (list str)) (xs : list str) (x : str) :
  h !! il = Some xs → last xs = Some x →
  is_vowel vowels x = false ∨ member x tones = false →
  attach_tones_to_vowels fuel il tones vowels 0 catdir h = OutOfFuel.
Proof.
  intros Hil Hlast Hx. unfold attach_tones_to_vowels, alloc.
  rewrite (deref_lookup _ _ _ Hil), deref_insert_eq.
  rewrite bool_decide_false by lia.
  apply (attach_loop_zero_step tones vowels catdir _ xs x fuel Hlast Hx); cbn [ol v t].
  - apply deref_insert_eq.
  - done.
  - rewrite bool_decide_false by lia. apply andb_false_r.
Qed.

Lemma attach_tones_zero_step_never_ends_witness :
  attach_tones_to_vowels 1000 0 (CStr "012") (CSeq ["a"; "e"]) 0 1 {[0 := ["1"; "a"]]}
  = OutOfFuel.
Proof.
  apply (attach_tones_zero_step_never_ends (CStr "012") (CSeq ["a"; "e"]) 1 1000 0
           {[0 := ["1"; "a"]]} ["1"; "a"] "a").
  - by vm_compute.
  - done.
  - right. by vm_compute.
Defined.

(** ** [convert], further *)

Lemma join_singletons s : join ((λ c, String c "") <$> chars s) = s.
Proof.
  induction s as [|c s IH]; [done|].
  change (chars (String c s)) with (c :: chars s).
  by rewrite fmap_cons, join_cons, IH.
Qed.

(** X22 (unknown text passes through [convert]).  For a supported pairing
    without tone settings and no reduction mapping, an input in which no
    non-empty key of the (non-empty) table occurs is returned as it is,
    recased for the upper-case codes and stripped. *)
Theorem convert_unknown_text (E : environment) (fuel : nat) (s0 c0 c1 input : str)
    (l : option str) (p : Phonecodes) :
  as_member E c0 c1 l = Ok p →
  _tone_stress_settings E p = None →
  input = (if bool_decide (p ∈ [ARPABET2IPA; BUCKEYE2IPA; TIMIT2IPA])
           then upper E s0 else s0) →
  _phonecode_lookup E p ≠ ∅ →
  len input ≤ fuel →
  (∀ k v, _phonecode_lookup E p !! k = Some v → k ≠ "" → contains k input = false) →
  result (convert E fuel s0 c0 c1 l None) = Ok (strip E input).
Proof.
  intros Hp Hcfg Hinput Hd Hfuel Hnone.
  destruct (as_member_codes _ _ _ _ _ Hp) as [<- <-].
  destruct (member_codes_known p) as [Hc0 Hc1].
  unfold convert, _verify_code. rewrite !decide_True by done.
  rewrite !eff_bind_result. cbn [lift result]. rewrite Hp, <- Hinput.
  rewrite eff_bind_result. cbn [lift result].
  rewrite (translate_string_all_miss _ _ _ Hd Hfuel).
  - rewrite Hcfg, !eff_bind_result. cbn [mret eff_ret result].
    by rewrite join_singletons.
  - intros k v a b Hk Hne Hs. specialize (Hnone k v Hk Hne).
    unfold slice in Hs. by rewrite <- Hs, contains_substring in Hnone.
Qed.

Lemma convert_unknown_text_witness :
  result (convert example_environment 3 "xyz" "timit" "ipa" None None)
  = Ok (strip example_environment "xyz").
Proof.
  apply (convert_unknown_text example_environment 3 "xyz" "timit" "ipa" "xyz" None
           TIMIT2IPA).
  - by vm_compute.
  - done.
  - by vm_compute.
  - intros H. apply (f_equal (λ m, m !! "AA")) in H. vm_compute in H. discriminate.
  - vm_compute. lia.
  - intros k v Hk _. change (_phonecode_lookup example_environment TIMIT2IPA)
      with ({["AA" := "a"]} : gmap str str) in Hk.
    apply lookup_singleton_Some in Hk as [<- _]. by vm_compute.
Defined.
